(** * internal/server/websocket.go: the per-connection WebSocket session

    A shallow embedding of [SocketClient] (construction and option
    resolution, [SendMessage], [ReadPump], [heartbeat] and its pong
    handler) and the properties of it that the specification states.

    Go's [int] and [time.Duration] are 64-bit two's-complement integers,
    carried here as [Z] with the wrap-around written out where the code does
    arithmetic.  Go strings are byte strings ([string]); [[]byte] is
    [list byte].  The calls the code makes on [*websocket.Conn], on the
    clock, on the ticker and on the [MessageHandler] are calls out of this
    file: their results come from the environment part of the state, and
    every call is recorded in a trace.  What the library does on its own
    inside [ReadMessage] (it hands pongs to the pong handler and answers
    ping and close frames) is part of the model of that call. *)

From Stdlib Require Import ZArith String List Bool Lia Arith.
From Stdlib Require Import Strings.Byte.
Import ListNotations.

Local Open Scope Z_scope.

(* ===================================================================== *)
(** ** Go integers and durations *)

Module GoInt.

Definition min_int : Z := - 2 ^ 63.
Definition max_int : Z := 2 ^ 63 - 1.

Definition in_range (z : Z) : Prop := min_int <= z <= max_int.

(** Two's-complement wrap-around of a mathematical integer into [int]. *)
Definition wrap (z : Z) : Z := (z + 2 ^ 63) mod 2 ^ 64 - 2 ^ 63.

(** [x++] and [x--]. *)
Definition incr (x : Z) : Z := wrap (x + 1).
Definition decr (x : Z) : Z := wrap (x - 1).

End GoInt.

(** [time.Duration] counts nanoseconds. *)
Module Duration.
Definition Nanosecond : Z := 1.
Definition Millisecond : Z := 1000000.
Definition Second : Z := 1000000000.
End Duration.

(** [time.Time]: the zero value [time.Time{}] (which, as a deadline, means
    "no deadline") or an instant in nanoseconds. *)
Inductive Time : Type :=
| ZeroTime
| Instant (ns : Z).

(** [t.Add(d)] on a clock reading. *)
Definition TimeAdd (now : Z) (d : Z) : Time := Instant (now + d).

(** A non-nil [error], by its message. *)
Definition error : Type := string.

(** websocket.PingMessage, and the frame types and the close code the
    library uses when it answers control frames on its own *)
Definition PingMessage : Z := 9.
Definition PongMessage : Z := 10.
Definition CloseMessage : Z := 8.
Definition CloseNoStatusReceived : Z := 1005.

(* ===================================================================== *)
(** ** SocketOption and its mutators *)

Record SocketOption : Type := mkSocketOption {
  writeReadBufferSize : Z;
  heartbeatFailMaxTimes : Z;
  writeDeadline : Z;
  readDeadline : Z;
  pingPeriod : Z;
  pingMsg : string
}.

(** [&SocketOption{}] *)
Definition zeroOption : SocketOption :=
  mkSocketOption 0 0 0 0 0 EmptyString.

(** The exported constructors of [SocketOptionFunc]. *)
Inductive SocketOptionFunc : Type :=
| WithWriteReadBufferSize (size : Z)
| WithReadDeadline (deadline : Z)
| WithHeartbeatFailMaxTimes (n : Z)
| WithWriteDeadline (deadline : Z)
| WithPingPeriod (period : Z)
| WithPingMsg (msg : string).

Definition set_writeReadBufferSize (v : Z) (opt : SocketOption) :=
  mkSocketOption v (heartbeatFailMaxTimes opt) (writeDeadline opt)
    (readDeadline opt) (pingPeriod opt) (pingMsg opt).
Definition set_heartbeatFailMaxTimes (v : Z) (opt : SocketOption) :=
  mkSocketOption (writeReadBufferSize opt) v (writeDeadline opt)
    (readDeadline opt) (pingPeriod opt) (pingMsg opt).
Definition set_writeDeadline (v : Z) (opt : SocketOption) :=
  mkSocketOption (writeReadBufferSize opt) (heartbeatFailMaxTimes opt) v
    (readDeadline opt) (pingPeriod opt) (pingMsg opt).
Definition set_readDeadline (v : Z) (opt : SocketOption) :=
  mkSocketOption (writeReadBufferSize opt) (heartbeatFailMaxTimes opt)
    (writeDeadline opt) v (pingPeriod opt) (pingMsg opt).
Definition set_pingPeriod (v : Z) (opt : SocketOption) :=
  mkSocketOption (writeReadBufferSize opt) (heartbeatFailMaxTimes opt)
    (writeDeadline opt) (readDeadline opt) v (pingMsg opt).
Definition set_pingMsg (v : string) (opt : SocketOption) :=
  mkSocketOption (writeReadBufferSize opt) (heartbeatFailMaxTimes opt)
    (writeDeadline opt) (readDeadline opt) (pingPeriod opt) v.

(** [f.apply(opt)]: each constructor assigns its one field. *)
Definition apply (f : SocketOptionFunc) (opt : SocketOption) : SocketOption :=
  match f with
  | WithWriteReadBufferSize size => set_writeReadBufferSize size opt
  | WithReadDeadline deadline => set_readDeadline deadline opt
  | WithHeartbeatFailMaxTimes n => set_heartbeatFailMaxTimes n opt
  | WithWriteDeadline deadline => set_writeDeadline deadline opt
  | WithPingPeriod period => set_pingPeriod period opt
  | WithPingMsg msg => set_pingMsg msg opt
  end.

(** [for _, opt := range opts { opt.apply(sOpt) }] *)
Definition applyAll (opts : list SocketOptionFunc) (opt : SocketOption)
  : SocketOption :=
  fold_left (fun o f => apply f o) opts opt.

Definition defaultOption (opts : SocketOption) : SocketOption :=
  let opts :=
    if pingPeriod opts =? 0
    then set_pingPeriod (20 * Duration.Second) opts else opts in
  let opts :=
    if writeDeadline opts =? 0
    then set_writeDeadline (35 * Duration.Second) opts else opts in
  let opts :=
    if writeReadBufferSize opts =? 0
    then set_writeReadBufferSize 20480 opts else opts in
  let opts :=
    if heartbeatFailMaxTimes opts =? 0
    then set_heartbeatFailMaxTimes 4 opts else opts in
  let opts :=
    if readDeadline opts =? 0
    then set_readDeadline (30 * Duration.Second) opts else opts in
  opts.

(** The configuration [NewSocket] stores in [client.option]. *)
Definition resolveOption (opts : list SocketOptionFunc) : SocketOption :=
  defaultOption (applyAll opts zeroOption).

(** What "explicitly set" means for a field: the value of the last mutator
    of that field in the sequence, if there is one. *)
Section LastSet.
Variable A : Type.
Variable pick : SocketOptionFunc -> option A.

Definition lastSet (opts : list SocketOptionFunc) : option A :=
  fold_left (fun acc f => match pick f with Some v => Some v | None => acc end)
    opts None.
End LastSet.
Arguments lastSet {A} pick opts.

Definition pickBufferSize f :=
  match f with WithWriteReadBufferSize v => Some v | _ => None end.
Definition pickReadDeadline f :=
  match f with WithReadDeadline v => Some v | _ => None end.
Definition pickFailMax f :=
  match f with WithHeartbeatFailMaxTimes v => Some v | _ => None end.
Definition pickWriteDeadline f :=
  match f with WithWriteDeadline v => Some v | _ => None end.
Definition pickPingPeriod f :=
  match f with WithPingPeriod v => Some v | _ => None end.
Definition pickPingMsg f :=
  match f with WithPingMsg v => Some v | _ => None end.

Definition orZero (v : option Z) : Z :=
  match v with Some x => x | None => 0 end.

(** A field that no mutator set holds its default. *)
Definition unsetIsDefault (pick : SocketOptionFunc -> option Z)
    (field : SocketOption -> Z) (dflt : Z) (opts : list SocketOptionFunc) : Prop :=
  lastSet pick opts = None -> field (resolveOption opts) = dflt.

(** A field that a mutator set holds the value it was last set to. *)
Definition setIsKept (pick : SocketOptionFunc -> option Z)
    (field : SocketOption -> Z) (opts : list SocketOptionFunc) : Prop :=
  forall v, lastSet pick opts = Some v -> field (resolveOption opts) = v.

(** The same, for values other than zero. *)
Definition nonZeroIsKept (pick : SocketOptionFunc -> option Z)
    (field : SocketOption -> Z) (opts : list SocketOptionFunc) : Prop :=
  forall v, lastSet pick opts = Some v -> v <> 0 -> field (resolveOption opts) = v.

(** A field last set to zero holds its default. *)
Definition zeroIsDefault (pick : SocketOptionFunc -> option Z)
    (field : SocketOption -> Z) (dflt : Z) (opts : list SocketOptionFunc) : Prop :=
  lastSet pick opts = Some 0 -> field (resolveOption opts) = dflt.

(** Defaults for the fields not set, and every field that was set kept. *)
Definition defaultsAndExplicitKept (opts : list SocketOptionFunc) : Prop :=
  (unsetIsDefault pickPingPeriod pingPeriod (20 * Duration.Second) opts /\
   unsetIsDefault pickWriteDeadline writeDeadline (35 * Duration.Second) opts /\
   unsetIsDefault pickReadDeadline readDeadline (30 * Duration.Second) opts /\
   unsetIsDefault pickBufferSize writeReadBufferSize 20480 opts /\
   unsetIsDefault pickFailMax heartbeatFailMaxTimes 4 opts) /\
  (setIsKept pickPingPeriod pingPeriod opts /\
   setIsKept pickWriteDeadline writeDeadline opts /\
   setIsKept pickReadDeadline readDeadline opts /\
   setIsKept pickBufferSize writeReadBufferSize opts /\
   setIsKept pickFailMax heartbeatFailMaxTimes opts).

(* ===================================================================== *)
(** ** The session, its connection and their environment *)

(** What the code reads and writes of a [*websocket.Conn]. *)
Record WsConn : Type := mkWsConn {
  connReadDeadline : Time;
  connWriteDeadline : Time;
  (** [true] once [heartbeat] has installed its pong handler; before that
      the library's default handler (which does nothing) is in place. *)
  connPongHandler : bool
}.

Record SocketClient : Type := mkSocketClient {
  Conn : WsConn;
  option_ : SocketOption;
  (** the embedded [sync.RWMutex]: is the write lock held? *)
  mutex : bool;
  (** capacity of the [Send] channel (nothing is ever sent on it) *)
  Send : Z;
  HeartbeatFailTimes : Z
}.

(** A panic value, by its [%v] rendering. *)
Definition PanicValue : Type := string.

(** What arrives on the connection, as [ReadMessage] sees it.  A read that
    outlasts the connection's read deadline is an [InError] of the traffic:
    the traffic is not timed, and the model does not check that an item
    arrives before the deadline in force. *)
Inductive Inbound : Type :=
| InData (messageType : Z) (data : list byte)   (* a data frame *)
| InPong (appData : string)                     (* a pong control frame *)
| InError (err : error)                         (* the read fails *)
| InFault (v : PanicValue)                      (* the read panics *)
| InPing (appData : string) (reply : option error)
    (* a ping control frame; [reply] is what the library's default ping
       handler returns after writing the pong *)
| InClose (code : Z) (text : string) (err : error).
    (* a close control frame; [err] is the message of the [*CloseError]
       that [ReadMessage] returns for it *)

(** The result of one [ReadMessage] call. *)
Inductive ReadResult : Type :=
| ReadOk (messageType : Z) (data : list byte)
| ReadErr (err : error)
| ReadPanic (v : PanicValue).

(** The calls of the [MessageHandler] interface. *)
Inductive HandlerCall : Type :=
| OnMessage (messageType : Z) (data : list byte)
| OnError (err : error)
| OnClose.

(** A handler, by what [ReadPump] can observe of it: given the calls it has
    received so far, whether the next call returns ([None]) or panics.  What
    a handler does to the session from inside a call is not part of it: a
    handler that calls [SendMessage] is, for the write side, one more
    application caller ([appCall]). *)
Definition MessageHandler : Type :=
  list HandlerCall -> HandlerCall -> option PanicValue.

Inductive Event : Type :=
| EvLock
| EvUnlock
| EvSetWriteDeadline (t : Time) (r : option error)
| EvWriteMessage (messageType : Z) (data : list byte)  (* the call is entered *)
| EvWriteReturn (r : option error)                     (* and returns *)
| EvSetReadDeadline (t : Time)
| EvSetPongHandler
| EvReadMessage (r : ReadResult)
| EvNewTicker (d : Z)
| EvTick
| EvTickerStop
| EvHandler (c : HandlerCall) (r : option PanicValue)
| EvWriteControl (messageType : Z) (data : list byte).
    (* the library writes a control frame in reply to an inbound one *)

(** The environment: successive clock readings, the results the connection
    will give to successive [SetWriteDeadline] and [WriteMessage] calls, and
    the inbound traffic still to arrive. *)
Record Env : Type := mkEnv {
  clock : nat -> Z;
  setWriteDeadlineErrs : nat -> option error;
  writeErrs : nat -> option error;
  inbound : list Inbound
}.

Record State : Type := mkState {
  client : SocketClient;
  env : Env;
  trace : list Event   (* oldest first *)
}.

Definition shift {A : Type} (f : nat -> A) : nat -> A := fun n => f (S n).

Definition set_client (c : SocketClient) (s : State) : State :=
  mkState c (env s) (trace s).
Definition set_env (e : Env) (s : State) : State :=
  mkState (client s) e (trace s).
Definition log (ev : Event) (s : State) : State :=
  mkState (client s) (env s) (trace s ++ [ev]).

Definition set_mutex (b : bool) (s : State) : State :=
  let c := client s in
  set_client (mkSocketClient (Conn c) (option_ c) b (Send c)
                (HeartbeatFailTimes c)) s.
Definition set_HeartbeatFailTimes (f : Z) (s : State) : State :=
  let c := client s in
  set_client (mkSocketClient (Conn c) (option_ c) (mutex c) (Send c) f) s.
Definition set_Conn (w : WsConn) (s : State) : State :=
  let c := client s in
  set_client (mkSocketClient w (option_ c) (mutex c) (Send c)
                (HeartbeatFailTimes c)) s.

Definition set_connReadDeadline (t : Time) (s : State) : State :=
  let w := Conn (client s) in
  set_Conn (mkWsConn t (connWriteDeadline w) (connPongHandler w)) s.
Definition set_connWriteDeadline (t : Time) (s : State) : State :=
  let w := Conn (client s) in
  set_Conn (mkWsConn (connReadDeadline w) t (connPongHandler w)) s.
Definition set_connPongHandler (b : bool) (s : State) : State :=
  let w := Conn (client s) in
  set_Conn (mkWsConn (connReadDeadline w) (connWriteDeadline w) b) s.

Definition set_clock (f : nat -> Z) (s : State) : State :=
  let e := env s in
  set_env (mkEnv f (setWriteDeadlineErrs e) (writeErrs e) (inbound e)) s.
Definition set_setWriteDeadlineErrs (f : nat -> option error) (s : State) :=
  let e := env s in
  set_env (mkEnv (clock e) f (writeErrs e) (inbound e)) s.
Definition set_writeErrs (f : nat -> option error) (s : State) : State :=
  let e := env s in
  set_env (mkEnv (clock e) (setWriteDeadlineErrs e) f (inbound e)) s.
Definition set_inbound (l : list Inbound) (s : State) : State :=
  let e := env s in
  set_env (mkEnv (clock e) (setWriteDeadlineErrs e) (writeErrs e) l) s.

(** The handler calls made so far. *)
Fixpoint handlerCalls (tr : list Event) : list HandlerCall :=
  match tr with
  | [] => []
  | EvHandler c _ :: tr' => c :: handlerCalls tr'
  | _ :: tr' => handlerCalls tr'
  end.

(* ===================================================================== *)
(** ** Programs: sequences of atomic steps on the state

    A goroutine is a program: it has returned, or it is about to take an
    atomic step.  In the current state the step either completes, changing
    the state and yielding a value to the rest of the program, or leaves the
    goroutine waiting where it is (a [Lock] on a held mutex, a read with no
    frame inbound). *)

Inductive Step (X : Type) : Type :=
| Yield (s : State) (x : X)
| Wait (s : State).
Arguments Yield {X} s x.
Arguments Wait {X} s.

Inductive prog (A : Type) : Type :=
| Ret (a : A)
| Atomic (X : Type) (act : State -> Step X) (k : X -> prog A).
Arguments Ret {A} a.
Arguments Atomic {A X} act k.

Fixpoint bind {A B : Type} (p : prog A) (f : A -> prog B) : prog B :=
  match p with
  | Ret a => f a
  | Atomic act k => Atomic act (fun x => bind (k x) f)
  end.

Declare Scope prog_scope.
Delimit Scope prog_scope with prog.
Notation "x <- p ;; q" := (bind p (fun x => q))
  (at level 61, p at next level, right associativity) : prog_scope.
Notation "p ;; q" := (bind p (fun _ => q))
  (at level 61, right associativity) : prog_scope.
Local Open Scope prog_scope.

Definition atomic {X : Type} (act : State -> Step X) : prog X :=
  Atomic act Ret.

(** One goroutine running alone: where it ends, or where it blocks. *)
Inductive Result (A : Type) : Type :=
| Done (a : A) (s : State)
| Blocked (s : State).
Arguments Done {A} a s.
Arguments Blocked {A} s.

Fixpoint run {A : Type} (p : prog A) (s : State) : Result A :=
  match p with
  | Ret a => Done a s
  | Atomic act k =>
      match act s with
      | Yield s' x => run (k x) s'
      | Wait s' => Blocked s'
      end
  end.

Definition final {A : Type} (r : Result A) : State :=
  match r with Done _ s => s | Blocked s => s end.

(** One step of a goroutine among others; a waiting goroutine stays where
    it is. *)
Definition step {A : Type} (p : prog A) (s : State) : option (State * prog A) :=
  match p with
  | Ret _ => None
  | Atomic act k =>
      match act s with
      | Yield s' x => Some (s', k x)
      | Wait s' => Some (s', p)
      end
  end.

(* ===================================================================== *)
(** ** The primitive steps *)

(** [s.Lock()] waits while the lock is held. *)
Definition Lock : prog unit :=
  atomic (fun s =>
    if mutex (client s) then Wait s
    else Yield (log EvLock (set_mutex true s)) tt).

(** [s.Unlock()].  Unlocking a mutex that is not locked is a fatal runtime
    error; the goroutine goes no further. *)
Definition Unlock : prog unit :=
  atomic (fun s =>
    if mutex (client s) then Yield (log EvUnlock (set_mutex false s)) tt
    else Wait s).

(** [time.Now()]: the next clock reading. *)
Definition Now : prog Z :=
  atomic (fun s =>
    Yield (set_clock (shift (clock (env s))) s) (clock (env s) O)).

(** [s.option] *)
Definition LoadOption : prog SocketOption :=
  atomic (fun s => Yield s (option_ (client s))).

(** [s.HeartbeatFailTimes], read and written. *)
Definition LoadFailTimes : prog Z :=
  atomic (fun s => Yield s (HeartbeatFailTimes (client s))).
Definition StoreFailTimes (f : Z) : prog unit :=
  atomic (fun s => Yield (set_HeartbeatFailTimes f s) tt).

(** [s.Conn.SetWriteDeadline(t)] *)
Definition ConnSetWriteDeadline (t : Time) : prog (option error) :=
  atomic (fun s =>
    let r := setWriteDeadlineErrs (env s) O in
    let s := set_setWriteDeadlineErrs (shift (setWriteDeadlineErrs (env s))) s in
    let s := match r with None => set_connWriteDeadline t s | Some _ => s end in
    Yield (log (EvSetWriteDeadline t r) s) r).

(** [s.Conn.WriteMessage(messageType, data)]: the call occupies the
    connection from the step that enters it to the step that returns. *)
Definition ConnWriteMessage (messageType : Z) (data : list byte)
  : prog (option error) :=
  atomic (fun s => Yield (log (EvWriteMessage messageType data) s) tt) ;;
  atomic (fun s =>
    let r := writeErrs (env s) O in
    Yield (log (EvWriteReturn r) (set_writeErrs (shift (writeErrs (env s))) s))
          r).

(** [s.Conn.SetReadDeadline(t)]; the code discards its result. *)
Definition ConnSetReadDeadline (t : Time) : prog unit :=
  atomic (fun s => Yield (log (EvSetReadDeadline t) (set_connReadDeadline t s)) tt).

(** [s.Conn.SetPongHandler(func ...)] with the closure of [heartbeat]. *)
Definition ConnSetPongHandler : prog unit :=
  atomic (fun s => Yield (log EvSetPongHandler (set_connPongHandler true s)) tt).

(** A call of the handler [h]. *)
Definition CallHandler (h : MessageHandler) (c : HandlerCall)
  : prog (option PanicValue) :=
  atomic (fun s =>
    let r := h (handlerCalls (trace s)) c in
    Yield (log (EvHandler c r) s) r).

(** [time.NewTicker(d)] panics when [d <= 0]. *)
Definition NewTicker (d : Z) : prog bool :=
  atomic (fun s => Yield (log (EvNewTicker d) s) (0 <? d)).
(** [<-ticker.C] *)
Definition TickerRecv : prog unit :=
  atomic (fun s => Yield (log EvTick s) tt).
Definition TickerStop : prog unit :=
  atomic (fun s => Yield (log EvTickerStop s) tt).

(* ===================================================================== *)
(** ** SendMessage *)

Definition SendMessage (messageType : Z) (message : string)
  : prog (option error) :=
  Lock ;;
  r <- (now <- Now ;;
        opt <- LoadOption ;;
        err <- ConnSetWriteDeadline (TimeAdd now (writeDeadline opt)) ;;
        match err with
        | Some e => Ret (Some e)
        | None =>
            err <- ConnWriteMessage messageType (list_byte_of_string message) ;;
            match err with
            | Some e => Ret (Some e)
            | None => Ret None
            end
        end) ;;
  (* deferred *)
  Unlock ;;
  Ret r.

(* ===================================================================== *)
(** ** heartbeat *)

(** The closure given to [SetPongHandler]. *)
Definition pongHandler (receivedPong : string) : prog (option error) :=
  opt <- LoadOption ;;
  (if readDeadline opt >? Duration.Nanosecond then
     now <- Now ;;
     opt <- LoadOption ;;
     ConnSetReadDeadline (TimeAdd now (readDeadline opt))
   else
     ConnSetReadDeadline ZeroTime) ;;
  Ret None.

Inductive HeartbeatExit : Type :=
| HbReturned       (* the loop returned: the monitor has stopped *)
| HbAwaitingTick   (* suspended in the [select], waiting for the ticker *)
| HbPanicked.      (* [NewTicker] panicked *)

(** The [for { select { case <-ticker.C: ... } }] loop, for the ticks the
    ticker delivers. *)
Fixpoint heartbeat_loop (ticks : nat) : prog HeartbeatExit :=
  match ticks with
  | O => Ret HbAwaitingTick
  | S ticks' =>
      TickerRecv ;;
      opt <- LoadOption ;;
      err <- SendMessage PingMessage (pingMsg opt) ;;
      match err with
      | Some _ =>
          f <- LoadFailTimes ;;
          StoreFailTimes (GoInt.incr f) ;;
          f <- LoadFailTimes ;;
          opt <- LoadOption ;;
          if f >? heartbeatFailMaxTimes opt then Ret HbReturned
          else heartbeat_loop ticks'
      | None =>
          f <- LoadFailTimes ;;
          (if f >? 0 then
             f <- LoadFailTimes ;;
             StoreFailTimes (GoInt.decr f)
           else Ret tt) ;;
          heartbeat_loop ticks'
      end
  end.

Definition heartbeat (ticks : nat) : prog HeartbeatExit :=
  opt <- LoadOption ;;
  ok <- NewTicker (pingPeriod opt) ;;
  if ok then
    now <- Now ;;
    opt <- LoadOption ;;
    ConnSetReadDeadline (TimeAdd now (readDeadline opt)) ;;
    ConnSetPongHandler ;;
    r <- heartbeat_loop ticks ;;
    match r with
    | HbReturned => (* deferred *) TickerStop ;; Ret HbReturned
    | _ => Ret r
    end
  else Ret HbPanicked.

(* ===================================================================== *)
(** ** ReadPump *)

(** The payload of the close frame the library's default close handler
    sends back ([FormatCloseMessage(code, "")]): the status code in two
    bytes, most significant first; nothing for [CloseNoStatusReceived]. *)
Definition byteOf (n : Z) : byte :=
  match Byte.of_N (Z.to_N (n mod 256)) with Some b => b | None => x00 end.

Definition closePayload (code : Z) : list byte :=
  if code =? CloseNoStatusReceived then []
  else [byteOf (code / 256); byteOf code].

(** [s.Conn.ReadMessage()]: control frames are handled in the reading
    goroutine and not returned.  A pong is handed to the installed pong
    handler.  No ping or close handler is installed, so the library's
    defaults run: a ping is answered with a pong carrying the same payload,
    and the read fails if that handler returns an error; a close frame is
    answered with a close frame and the read fails with a [*CloseError].
    Both replies are written by the library ([WriteControl]) from the
    reading goroutine, not through [SendMessage].  The call returns at the
    first data frame, error or fault, and goes on waiting when nothing more
    is inbound. *)
Fixpoint readMessage (l : list Inbound) (s : State) : Step ReadResult :=
  match l with
  | [] => Wait s
  | InPong appData :: l' =>
      if connPongHandler (Conn (client s)) then
        match run (pongHandler appData) (set_inbound l' s) with
        | Done _ s' => readMessage l' s'
        | Blocked s' => Wait s'
        end
      else readMessage l' (set_inbound l' s)
  | InData mt data :: l' =>
      Yield (log (EvReadMessage (ReadOk mt data)) (set_inbound l' s))
            (ReadOk mt data)
  | InError err :: l' =>
      Yield (log (EvReadMessage (ReadErr err)) (set_inbound l' s))
            (ReadErr err)
  | InFault v :: l' =>
      Yield (log (EvReadMessage (ReadPanic v)) (set_inbound l' s))
            (ReadPanic v)
  | InPing appData reply :: l' =>
      let s1 := log (EvWriteControl PongMessage (list_byte_of_string appData))
                    (set_inbound l' s) in
      match reply with
      | None => readMessage l' s1
      | Some err => Yield (log (EvReadMessage (ReadErr err)) s1) (ReadErr err)
      end
  | InClose code text err :: l' =>
      Yield (log (EvReadMessage (ReadErr err))
               (log (EvWriteControl CloseMessage (closePayload code))
                  (set_inbound l' s)))
            (ReadErr err)
  end.

Definition ConnReadMessage : prog ReadResult :=
  atomic (fun s => readMessage (inbound (env s)) s).

(** How the body of [ReadPump] is left. *)
Inductive LoopExit : Type :=
| Break                      (* [break] after a read error *)
| Panicking (v : PanicValue) (* a panic unwinds the loop *)
| OutOfFuel.                 (* still looping *)

(** The [for { ... }] loop, for at most [fuel] iterations. *)
Fixpoint ReadPump_loop (handler : MessageHandler) (fuel : nat) : prog LoopExit :=
  match fuel with
  | O => Ret OutOfFuel
  | S fuel' =>
      r <- ConnReadMessage ;;
      match r with
      | ReadPanic v => Ret (Panicking v)
      | ReadErr err =>
          p <- CallHandler handler (OnError err) ;;
          match p with
          | Some v => Ret (Panicking v)
          | None => Ret Break
          end
      | ReadOk mt data =>
          p <- CallHandler handler (OnMessage mt data) ;;
          match p with
          | Some v => Ret (Panicking v)
          | None => ReadPump_loop handler fuel'
          end
      end
  end.

Inductive ReadPumpExit : Type :=
| RpReturned                 (* [ReadPump] returned to its caller *)
| RpPanicked (v : PanicValue) (* a panic left [ReadPump] *)
| RpRunning.                 (* still looping *)

(** [errors.New(fmt.Sprintf("%v", err))] *)
Definition errorOfPanic (v : PanicValue) : error := v.

Definition ReadPump (handler : MessageHandler) (fuel : nat) : prog ReadPumpExit :=
  r <- ReadPump_loop handler fuel ;;
  match r with
  | OutOfFuel => Ret RpRunning
  | Break => (* deferred: [recover()] is nil *) Ret RpReturned
  | Panicking v =>
      (* deferred: [recover()] is the panic value *)
      p <- CallHandler handler (OnError (errorOfPanic v)) ;;
      match p with
      | Some v' => Ret (RpPanicked v')
      | None =>
          p <- CallHandler handler OnClose ;;
          match p with
          | Some v' => Ret (RpPanicked v')
          | None => Ret RpReturned
          end
      end
  end.

(* ===================================================================== *)
(** ** NewSocket *)

Inductive NewSocketResult : Type :=
| NewSocketOk (s : State)      (* the client; [heartbeat] has been started *)
| NewSocketErr (err : error)   (* the upgrade failed *)
| NewSocketPanic.              (* an allocation of size [n] is refused *)

(** The runtime's bound on one allocation and the size of a channel's
    header, as on a 64-bit platform with 48-bit heap addresses; an element
    of a [chan []byte] is a slice header of 24 bytes. *)
Definition maxAlloc : Z := 2 ^ 48.
Definition hchanSize : Z := 96.
Definition sliceHeaderSize : Z := 24.

(** [make(chan []byte, n)] panics ("makechan: size out of range") for a
    negative [n] and for one whose buffer exceeds what the runtime
    allocates.  Every such [n] above the bound is also refused by the
    buffers [Upgrade] makes ([n] and [n + 14] bytes), and no other [n] is. *)
Definition makechanPanics (n : Z) : bool :=
  (n <? 0) || (maxAlloc - hchanSize <? sliceHeaderSize * n).

(** The client as [upGrader] completes it: the upgraded connection, the
    resolved options, the lock free, the [Send] channel made, no failure
    counted. *)
Definition newClient (sOpt : SocketOption) (e : Env) : State :=
  mkState
    (mkSocketClient (mkWsConn ZeroTime ZeroTime false) sOpt false
       (writeReadBufferSize sOpt) 0)
    e [].

(** [upgrade] is the error that [upGrader.Upgrade] returns, if it returns
    one; [e] is the environment the new connection lives in.  Memory is
    not modelled: an allocation within the runtime's bound is taken to
    succeed. *)
Definition NewSocket (upgrade : option error) (e : Env)
    (opts : list SocketOptionFunc) : NewSocketResult :=
  let sOpt := applyAll opts zeroOption in
  let sOpt := defaultOption sOpt in
  match upgrade with
  | Some err => NewSocketErr err
  | None =>
      if makechanPanics (writeReadBufferSize sOpt) then NewSocketPanic
      else NewSocketOk (newClient sOpt e)
  end.

(* ===================================================================== *)
(** ** The runs of [SendMessage] and [heartbeat], step by step *)

(** What a [SendMessage] call returns, and what it logs, when the lock is
    free. *)
Definition sendResult (s : State) : option error :=
  match setWriteDeadlineErrs (env s) O with
  | Some e => Some e
  | None => writeErrs (env s) O
  end.

Definition sendEvents (messageType : Z) (message : string) (s : State)
  : list Event :=
  let t := TimeAdd (clock (env s) O) (writeDeadline (option_ (client s))) in
  match setWriteDeadlineErrs (env s) O with
  | Some e => [EvLock; EvSetWriteDeadline t (Some e); EvUnlock]
  | None =>
      [EvLock; EvSetWriteDeadline t None;
       EvWriteMessage messageType (list_byte_of_string message);
       EvWriteReturn (writeErrs (env s) O); EvUnlock]
  end.

(** The state [heartbeat] enters its loop in. *)
Definition afterSetup (s : State) : State :=
  let opt := option_ (client s) in
  let t := TimeAdd (clock (env s) O) (readDeadline opt) in
  log EvSetPongHandler
    (set_connPongHandler true
       (log (EvSetReadDeadline t)
          (set_connReadDeadline t
             (set_clock (shift (clock (env s)))
                (log (EvNewTicker (pingPeriod opt)) s))))).

(** One iteration of the loop of [heartbeat], from a state with the lock
    free: the state it leaves, and whether it returns. *)
Definition afterTick (s : State) : State :=
  let opt := option_ (client s) in
  let f := HeartbeatFailTimes (client s) in
  let s1 := final (run (SendMessage PingMessage (pingMsg opt)) (log EvTick s)) in
  match sendResult s with
  | Some _ => set_HeartbeatFailTimes (GoInt.incr f) s1
  | None => if f >? 0 then set_HeartbeatFailTimes (GoInt.decr f) s1 else s1
  end.

Definition tickStops (s : State) : bool :=
  match sendResult s with
  | Some _ =>
      GoInt.incr (HeartbeatFailTimes (client s))
        >? heartbeatFailMaxTimes (option_ (client s))
  | None => false
  end.

(** The read deadline the pong handler leaves on the connection. *)
Definition pongDeadline (s : State) : Time :=
  let opt := option_ (client s) in
  if readDeadline opt >? Duration.Nanosecond
  then TimeAdd (clock (env s) O) (readDeadline opt)
  else ZeroTime.

(** The reads and handler calls that deliver the given data frames. *)
Definition deliveries (frames : list (Z * list byte)) : list Event :=
  flat_map (fun f => [EvReadMessage (ReadOk (fst f) (snd f));
                      EvHandler (OnMessage (fst f) (snd f)) None]) frames.

(** The state a [ReadMessage] call leaves, whether it returns or waits. *)
Definition stepState {X : Type} (st : Step X) : State :=
  match st with Yield s _ => s | Wait s => s end.

(* ===================================================================== *)
(** ** Sample environments *)

(** Every [SendMessage] fails: at each call either the write deadline
    cannot be set or the write fails. *)
Definition probesAlwaysFail (e : Env) : Prop :=
  forall i j, setWriteDeadlineErrs e i <> None \/ writeErrs e j <> None.

(** A connection on which deadlines can be set and every write fails. *)
Definition brokenPipe : Env :=
  mkEnv (fun n => Z.of_nat n * Duration.Millisecond)
        (fun _ => None)
        (fun _ => Some "broken pipe"%string)
        [].

(** Two data frames with a pong between them, then a read error, then a
    frame that is never read. *)
Definition sampleTraffic : list Inbound :=
  [InData 1 (list_byte_of_string "hi"); InPong "";
   InData 2 (list_byte_of_string "yo");
   InError "EOF"; InData 1 (list_byte_of_string "late")]%string.

Definition trafficEnv (l : list Inbound) : Env :=
  mkEnv (fun n => Z.of_nat n * Duration.Millisecond)
        (fun _ => None) (fun _ => None) l.

(** A handler whose calls all return. *)
Definition calmHandler : MessageHandler := fun _ _ => None.

(** A handler that panics on type-2 frames. *)
Definition touchyHandler : MessageHandler :=
  fun _ c =>
    match c with
    | OnMessage 2 _ => Some "unexpected binary frame"%string
    | _ => None
    end.

(** A connection whose first [F] writes fail and whose later writes
    succeed. *)
Definition flaky (F : nat) : Env :=
  mkEnv (fun n => Z.of_nat n * Duration.Millisecond)
        (fun _ => None)
        (fun j => if (j <? F)%nat then Some "timeout"%string else None)
        [].

(* ===================================================================== *)
(** ** Reading traces *)

(** The events logged between two states of one run. *)
Definition since (s s' : State) : list Event :=
  skipn (length (trace s)) (trace s').

Definition countEv (f : Event -> bool) (tr : list Event) : Z :=
  Z.of_nat (length (filter f tr)).

Definition isLock (ev : Event) : bool :=
  match ev with EvLock => true | _ => false end.
Definition isTick (ev : Event) : bool :=
  match ev with EvTick => true | _ => false end.
Definition isWrite (ev : Event) : bool :=
  match ev with EvWriteMessage _ _ => true | _ => false end.
Definition isWriteReturn (ev : Event) : bool :=
  match ev with EvWriteReturn _ => true | _ => false end.
(** The reads of [ReadPump] and its calls of the handler. *)
Definition isReadOrHandler (ev : Event) : bool :=
  match ev with EvReadMessage _ | EvHandler _ _ => true | _ => false end.

(** A ping frame with an empty payload, if a write at all. *)
Definition emptyPingIfWrite (ev : Event) : Prop :=
  match ev with
  | EvWriteMessage mt data => mt = PingMessage /\ data = []
  | _ => True
  end.

(** The data frames of a stretch of inbound traffic. *)
Fixpoint dataFrames (l : list Inbound) : list (Z * list byte) :=
  match l with
  | [] => []
  | InData mt data :: l' => (mt, data) :: dataFrames l'
  | _ :: l' => dataFrames l'
  end.

(** Data and pong frames: traffic on which no read fails and to which the
    library replies nothing. *)
Definition benign (i : Inbound) : bool :=
  match i with InData _ _ | InPong _ => true | _ => false end.

(* ===================================================================== *)
(** ** Goroutines side by side *)

(** Where a goroutine, or the connection as a whole, stands with respect to
    the write lock. *)
Inductive Hold : Type :=
| Out       (* not holding the lock *)
| Held      (* holding it, no write under way *)
| Writing.  (* holding it, inside [WriteMessage] *)

(** Events that are no part of [SendMessage]'s protocol. *)
Definition quiet (ev : Event) : bool :=
  match ev with
  | EvLock | EvUnlock | EvSetWriteDeadline _ _
  | EvWriteMessage _ _ | EvWriteReturn _ => false
  | _ => true
  end.

(** The write protocol: the lock is taken before the write deadline is set
    or a write is entered, a write is entered only when none is under way,
    and the lock is released only after the write has returned. *)
Definition protocol (h : Hold) (ev : Event) : option Hold :=
  match ev with
  | EvLock => match h with Out => Some Held | _ => None end
  | EvUnlock => match h with Held => Some Out | _ => None end
  | EvSetWriteDeadline _ _ => match h with Held => Some Held | _ => None end
  | EvWriteMessage _ _ => match h with Held => Some Writing | _ => None end
  | EvWriteReturn _ => match h with Writing => Some Held | _ => None end
  | _ => Some h
  end.

Definition protocolRun (h : Hold) (tr : list Event) : option Hold :=
  fold_left (fun st ev => match st with Some h => protocol h ev | None => None end)
    tr (Some h).

(** Writes entered and not yet returned. *)
Definition inFlight (tr : list Event) : Z :=
  countEv isWrite tr - countEv isWriteReturn tr.

Definition mutexOk (h h' : Hold) (m m' : bool) : Prop :=
  match h, h' with
  | Out, Out => m' = m
  | Out, _ => m = false /\ m' = true
  | _, Out => m' = false
  | _, _ => m' = m
  end.

(** What one atomic step of a goroutine standing at [h] may do: log events
    that do not concern the write side, or make one move of the protocol;
    touch the mutex only by taking or releasing it; and leave the
    configuration alone. *)
Definition stepOk (h h' : Hold) (s s' : State) : Prop :=
  option_ (client s') = option_ (client s) /\
  mutexOk h h' (mutex (client s)) (mutex (client s')) /\
  exists evs, trace s' = trace s ++ evs /\
    ((h' = h /\ forallb quiet evs = true) \/
     (exists ev, evs = [ev] /\ quiet ev = false /\ protocol h ev = Some h')).

(** A program that, started at [h], makes only such steps, and returns
    without the lock. *)
Fixpoint follows {A : Type} (h : Hold) (p : prog A) : Prop :=
  match p with
  | Ret _ => h = Out
  | Atomic act k =>
      forall s,
        match act s with
        | Yield s' x => exists h', stepOk h h' s s' /\ follows h' (k x)
        | Wait s' => stepOk h h s s'
        end
  end.

Inductive goroutine : Type :=
| Go {A : Type} (p : prog A).

Definition Pool : Type := list goroutine.

(** What the application may start on a session. *)
Inductive appCall : goroutine -> Prop :=
| app_SendMessage mt msg : appCall (Go (SendMessage mt msg))
| app_ReadPump handler fuel : appCall (Go (ReadPump handler fuel)).

Inductive poolStep : State * Pool -> State * Pool -> Prop :=
| ps_spawn s ts g :
    appCall g ->
    poolStep (s, ts) (s, ts ++ [g])
| ps_run s s' ts1 ts2 A (p p' : prog A) :
    step p s = Some (s', p') ->
    poolStep (s, ts1 ++ Go p :: ts2) (s', ts1 ++ Go p' :: ts2).

Inductive reachable (c0 : State * Pool) : State * Pool -> Prop :=
| reach_here : reachable c0 c0
| reach_step c c' : reachable c0 c -> poolStep c c' -> reachable c0 c'.

(** The standing of the whole pool: [Out] when no goroutine holds the lock,
    the standing of the one that does otherwise; [None] if two do. *)
Definition merge (h : Hold) (r : option Hold) : option Hold :=
  match h, r with
  | Out, r => r
  | h, Some Out => Some h
  | _, _ => None
  end.

Fixpoint joint (hs : list Hold) : option Hold :=
  match hs with
  | [] => Some Out
  | h :: hs' => merge h (joint hs')
  end.

Definition followsG (h : Hold) (g : goroutine) : Prop :=
  match g with Go p => follows h p end.

Definition isOut (h : Hold) : bool :=
  match h with Out => true | _ => false end.

Definition poolInv (c : State * Pool) : Prop :=
  exists hs g,
    Forall2 followsG hs (snd c) /\
    joint hs = Some g /\
    protocolRun Out (trace (fst c)) = Some g /\
    mutex (client (fst c)) = negb (isOut g).

(* ===================================================================== *)
(** ** More on options, sends and the monitor *)

(** Do two mutators assign the same field? *)
Definition sameField (f g : SocketOptionFunc) : bool :=
  match f, g with
  | WithWriteReadBufferSize _, WithWriteReadBufferSize _
  | WithReadDeadline _, WithReadDeadline _
  | WithHeartbeatFailMaxTimes _, WithHeartbeatFailMaxTimes _
  | WithWriteDeadline _, WithWriteDeadline _
  | WithPingPeriod _, WithPingPeriod _
  | WithPingMsg _, WithPingMsg _ => true
  | _, _ => false
  end.

(** No numeric field of a configuration is zero. *)
Definition noZeroField (o : SocketOption) : Prop :=
  pingPeriod o <> 0 /\ writeDeadline o <> 0 /\ writeReadBufferSize o <> 0 /\
  heartbeatFailMaxTimes o <> 0 /\ readDeadline o <> 0.


Definition isUnlock (ev : Event) : bool :=
  match ev with EvUnlock => true | _ => false end.
Definition isSetWriteDeadline (ev : Event) : bool :=
  match ev with EvSetWriteDeadline _ _ => true | _ => false end.


(** A handler whose [OnError] panics. *)
Definition brittleHandler : MessageHandler :=
  fun _ c =>
    match c with
    | OnError _ => Some "cannot log"%string
    | _ => None
    end.


(** A caller that sends the given messages one after the other and collects
    what [SendMessage] returned for each. *)
Fixpoint sendAll (msgs : list (Z * string)) : prog (list (option error)) :=
  match msgs with
  | [] => Ret []
  | m :: rest =>
      r <- SendMessage (fst m) (snd m) ;;
      rs <- sendAll rest ;;
      Ret (r :: rs)
  end.

(** A program none of whose steps changes the failure counter. *)
Fixpoint keepsCounter {A : Type} (p : prog A) : Prop :=
  match p with
  | Ret _ => True
  | Atomic act k =>
      forall s,
        HeartbeatFailTimes (client (stepState (act s)))
          = HeartbeatFailTimes (client s) /\
        match act s with
        | Yield _ x => keepsCounter (k x)
        | Wait _ => True
        end
  end.

Definition keepsCounterG (g : goroutine) : Prop :=
  match g with Go p => keepsCounter p end.


(** [follows], and moreover the program waits only while it does not hold
    the lock (or, as a failed [Unlock] would, when the lock is not held at
    all). *)
Fixpoint followsLive {A : Type} (h : Hold) (p : prog A) : Prop :=
  match p with
  | Ret _ => h = Out
  | Atomic act k =>
      forall s,
        match act s with
        | Yield s' x => exists h', stepOk h h' s s' /\ followsLive h' (k x)
        | Wait s' =>
            stepOk h h s s' /\ (h = Out \/ mutex (client s) = false)
        end
  end.

Definition followsLiveG (h : Hold) (g : goroutine) : Prop :=
  match g with Go p => followsLive h p end.

Definition poolInvLive (c : State * Pool) : Prop :=
  exists hs g,
    Forall2 followsLiveG hs (snd c) /\
    joint hs = Some g /\
    protocolRun Out (trace (fst c)) = Some g /\
    mutex (client (fst c)) = negb (isOut g).

(** A goroutine of the pool that stands inside the critical section (it
    follows the protocol from [Held] or [Writing], so it unlocks before it
    returns) is at a step that completes in the state. *)
Definition holderAdvances (c : State * Pool) : Prop :=
  exists ts1 ts2 A X (act : State -> Step X) (k : X -> prog A) h s' x,
    snd c = ts1 ++ Go (Atomic act k) :: ts2 /\
    h <> Out /\
    followsLive h (Atomic act k) /\
    act (fst c) = Yield s' x.

(* ===================================================================== *)
(** ** Two statements to be tested against the code *)

(** [OnClose] is called exactly when a panic is raised in the loop of
    [ReadPump], whatever the handler does in the calls that follow. *)
Definition onCloseIffFault
    (handler : MessageHandler) (fuel : nat) (s : State) : Prop :=
  In OnClose (handlerCalls (since s (final (run (ReadPump handler fuel) s))))
  <-> exists v s1, run (ReadPump_loop handler fuel) s = Done (Panicking v) s1.

(** The write side, were every write to the connection made under the
    lock: a control frame, too, is written only with the lock held and no
    write under way. *)
Definition guarded (h : Hold) (ev : Event) : option Hold :=
  match ev with
  | EvWriteControl _ _ => match h with Held => Some Held | _ => None end
  | _ => protocol h ev
  end.

Definition guardedRun (h : Hold) (tr : list Event) : option Hold :=
  fold_left (fun st ev => match st with Some h => guarded h ev | None => None end)
    tr (Some h).

Definition everyWriteUnderLock (c0 : State * Pool) : Prop :=
  forall s ts, reachable c0 (s, ts) -> exists g, guardedRun Out (trace s) = Some g.

(** A peer that sends one ping. *)
Definition pingTraffic : list Inbound := [InPing "are you there" None]%string.

(* ===================================================================== *)
(** * Properties *)

(** ** Go integers *)

Module GoIntFacts.
Import GoInt.

Lemma wrap_in_range z : in_range (wrap z).
Proof.
  unfold in_range, wrap, min_int, max_int.
  pose proof (Z.mod_pos_bound (z + 2 ^ 63) (2 ^ 64) ltac:(lia)). lia.
Qed.

Lemma wrap_id z : in_range z -> wrap z = z.
Proof.
  unfold in_range, wrap, min_int, max_int. intros H.
  rewrite Z.mod_small; lia.
Qed.

Lemma incr_small x : min_int <= x < max_int -> incr x = x + 1.
Proof.
  intros H. unfold incr. apply wrap_id. unfold in_range. lia.
Qed.

Lemma decr_pos x : 0 < x <= max_int -> decr x = x - 1.
Proof.
  intros H. unfold decr. apply wrap_id.
  unfold in_range, min_int, max_int in *. lia.
Qed.

(** [x++] on the largest [int] wraps to the smallest. *)
Lemma incr_max_int : incr max_int = min_int.
Proof. reflexivity. Qed.

End GoIntFacts.

(* ===================================================================== *)
(** ** Option resolution *)

Lemma applyAll_snoc opts f o :
  applyAll (opts ++ [f]) o = apply f (applyAll opts o).
Proof. unfold applyAll. rewrite fold_left_app. reflexivity. Qed.

Lemma lastSet_snoc {A} (pick : SocketOptionFunc -> option A) opts f :
  lastSet pick (opts ++ [f]) =
  match pick f with Some v => Some v | None => lastSet pick opts end.
Proof. unfold lastSet. rewrite fold_left_app. reflexivity. Qed.

(** After the mutators, a field holds what the last mutator of that field
    gave it, and the zero value if there was none. *)
Section AppliedFields.
Variable opts : list SocketOptionFunc.

Let applied := applyAll opts zeroOption.

Lemma applied_fields :
  writeReadBufferSize applied = orZero (lastSet pickBufferSize opts) /\
  heartbeatFailMaxTimes applied = orZero (lastSet pickFailMax opts) /\
  writeDeadline applied = orZero (lastSet pickWriteDeadline opts) /\
  readDeadline applied = orZero (lastSet pickReadDeadline opts) /\
  pingPeriod applied = orZero (lastSet pickPingPeriod opts) /\
  pingMsg applied =
    match lastSet pickPingMsg opts with Some m => m | None => EmptyString end.
Proof.
  subst applied. induction opts as [|f l IH] using rev_ind.
  - repeat split.
  - rewrite applyAll_snoc, !lastSet_snoc.
    destruct IH as (H1 & H2 & H3 & H4 & H5 & H6).
    destruct f; cbn; repeat split; assumption.
Qed.
End AppliedFields.

Lemma defaultOption_fields o :
  writeReadBufferSize (defaultOption o) =
    (if writeReadBufferSize o =? 0 then 20480 else writeReadBufferSize o) /\
  heartbeatFailMaxTimes (defaultOption o) =
    (if heartbeatFailMaxTimes o =? 0 then 4 else heartbeatFailMaxTimes o) /\
  writeDeadline (defaultOption o) =
    (if writeDeadline o =? 0 then 35 * Duration.Second else writeDeadline o) /\
  readDeadline (defaultOption o) =
    (if readDeadline o =? 0 then 30 * Duration.Second else readDeadline o) /\
  pingPeriod (defaultOption o) =
    (if pingPeriod o =? 0 then 20 * Duration.Second else pingPeriod o) /\
  pingMsg (defaultOption o) = pingMsg o.
Proof.
  destruct o as [b m w r p msg]. unfold defaultOption. cbn.
  destruct (p =? 0); cbn; destruct (w =? 0); cbn; destruct (b =? 0); cbn;
    destruct (m =? 0); cbn; destruct (r =? 0); cbn; repeat split.
Qed.

(** Each field of the resolved configuration, from the mutators of that
    field alone. *)
Lemma resolveOption_fields opts :
  let resolved (set : option Z) (dflt : Z) :=
    if orZero set =? 0 then dflt else orZero set in
  writeReadBufferSize (resolveOption opts) =
    resolved (lastSet pickBufferSize opts) 20480 /\
  heartbeatFailMaxTimes (resolveOption opts) =
    resolved (lastSet pickFailMax opts) 4 /\
  writeDeadline (resolveOption opts) =
    resolved (lastSet pickWriteDeadline opts) (35 * Duration.Second) /\
  readDeadline (resolveOption opts) =
    resolved (lastSet pickReadDeadline opts) (30 * Duration.Second) /\
  pingPeriod (resolveOption opts) =
    resolved (lastSet pickPingPeriod opts) (20 * Duration.Second) /\
  pingMsg (resolveOption opts) =
    match lastSet pickPingMsg opts with Some m => m | None => EmptyString end.
Proof.
  intros resolved. unfold resolveOption.
  destruct (applied_fields opts) as (H1 & H2 & H3 & H4 & H5 & H6).
  destruct (defaultOption_fields (applyAll opts zeroOption))
    as (D1 & D2 & D3 & D4 & D5 & D6).
  rewrite D1, D2, D3, D4, D5, D6, H1, H2, H3, H4, H5, H6.
  repeat split.
Qed.

Lemma lastSet_None_iff {A} (pick : SocketOptionFunc -> option A) opts :
  lastSet pick opts = None <-> forall f, In f opts -> pick f = None.
Proof.
  induction opts as [|f l IH] using rev_ind.
  - split; [intros _ f [] | reflexivity].
  - rewrite lastSet_snoc. split.
    + intros H g Hg. destruct (pick f) eqn:E; [discriminate|].
      apply in_app_or in Hg. destruct Hg as [Hg|[<-|[]]]; [|exact E].
      apply IH; assumption.
    + intros H. rewrite (H f) by (apply in_or_app; right; left; reflexivity).
      apply IH. intros g Hg. apply H. apply in_or_app. left. exact Hg.
Qed.

(** C4, as amended.  For every sequence of mutators: a field that no mutator
    set holds its documented default (pingPeriod 20s, writeDeadline 35s,
    readDeadline 30s, bufferSize 20480, maxHeartbeatFailures 4); a field
    whose last mutator gave it a value other than zero holds that value; and
    a pingPeriod, writeDeadline, bufferSize or maxHeartbeatFailures last set
    to zero holds its default.  Each field depends on its own mutators
    only. *)
Theorem resolveOption_defaults (opts : list SocketOptionFunc) :
  (unsetIsDefault pickPingPeriod pingPeriod (20 * Duration.Second) opts /\
   unsetIsDefault pickWriteDeadline writeDeadline (35 * Duration.Second) opts /\
   unsetIsDefault pickReadDeadline readDeadline (30 * Duration.Second) opts /\
   unsetIsDefault pickBufferSize writeReadBufferSize 20480 opts /\
   unsetIsDefault pickFailMax heartbeatFailMaxTimes 4 opts) /\
  (nonZeroIsKept pickPingPeriod pingPeriod opts /\
   nonZeroIsKept pickWriteDeadline writeDeadline opts /\
   nonZeroIsKept pickReadDeadline readDeadline opts /\
   nonZeroIsKept pickBufferSize writeReadBufferSize opts /\
   nonZeroIsKept pickFailMax heartbeatFailMaxTimes opts) /\
  (zeroIsDefault pickPingPeriod pingPeriod (20 * Duration.Second) opts /\
   zeroIsDefault pickWriteDeadline writeDeadline (35 * Duration.Second) opts /\
   zeroIsDefault pickBufferSize writeReadBufferSize 20480 opts /\
   zeroIsDefault pickFailMax heartbeatFailMaxTimes 4 opts).
Proof.
  destruct (resolveOption_fields opts) as (H1 & H2 & H3 & H4 & H5 & _).
  cbv zeta in *.
  unfold unsetIsDefault, nonZeroIsKept, zeroIsDefault.
  rewrite H1, H2, H3, H4, H5.
  repeat split; intros; rewrite ?H, ?H0; cbn [orZero];
    try reflexivity;
    match goal with
    | Hv : ?v <> 0 |- _ => apply Z.eqb_neq in Hv; rewrite Hv; reflexivity
    end.
Qed.

(** C4, as stated, fails: a threshold explicitly set to zero is overwritten
    by the default 4. *)
Lemma resolveOption_explicit_zero_overwritten :
  ~ defaultsAndExplicitKept [WithHeartbeatFailMaxTimes 0].
Proof.
  intros [_ (_ & _ & _ & _ & H)].
  specialize (H 0 eq_refl). discriminate H.
Qed.

(* ===================================================================== *)
(** ** Running programs *)

Lemma run_bind {A B} (p : prog A) (f : A -> prog B) s :
  run (bind p f) s =
  match run p s with
  | Done a s' => run (f a) s'
  | Blocked s' => Blocked s'
  end.
Proof.
  revert s. induction p as [a|X act k IH]; intros s; cbn.
  - reflexivity.
  - destruct (act s) as [s' x|s']; [apply IH | reflexivity].
Qed.

(** Run the primitive steps at the head of a program. *)
Ltac run_prims :=
  repeat (rewrite ?run_bind;
          progress cbn [run atomic TickerRecv TickerStop NewTicker Now
                        LoadOption LoadFailTimes StoreFailTimes
                        ConnSetReadDeadline ConnSetPongHandler
                        CallHandler]).

Lemma since_app s s' evs : trace s' = trace s ++ evs -> since s s' = evs.
Proof.
  intros H. unfold since. rewrite H, skipn_app, skipn_all, Nat.sub_diag.
  reflexivity.
Qed.

Lemma since_refl s : since s s = [].
Proof. apply since_app. symmetry. apply app_nil_r. Qed.

(* ===================================================================== *)
(** ** SendMessage *)

Lemma SendMessage_run mt msg s :
  mutex (client s) = false ->
  exists s',
    run (SendMessage mt msg) s = Done (sendResult s) s' /\
    trace s' = trace s ++ sendEvents mt msg s /\
    option_ (client s') = option_ (client s) /\
    mutex (client s') = false /\
    HeartbeatFailTimes (client s') = HeartbeatFailTimes (client s) /\
    connReadDeadline (Conn (client s')) = connReadDeadline (Conn (client s)) /\
    connPongHandler (Conn (client s')) = connPongHandler (Conn (client s)) /\
    connWriteDeadline (Conn (client s')) =
      match setWriteDeadlineErrs (env s) O with
      | Some _ => connWriteDeadline (Conn (client s))
      | None => TimeAdd (clock (env s) O) (writeDeadline (option_ (client s)))
      end /\
    clock (env s') = shift (clock (env s)) /\
    setWriteDeadlineErrs (env s') = shift (setWriteDeadlineErrs (env s)) /\
    writeErrs (env s') =
      match setWriteDeadlineErrs (env s) O with
      | Some _ => writeErrs (env s)
      | None => shift (writeErrs (env s))
      end /\
    inbound (env s') = inbound (env s).
Proof.
  intros Hm. unfold SendMessage, sendResult, sendEvents. cbn. rewrite Hm. cbn.
  destruct (setWriteDeadlineErrs (env s) O) as [e|] eqn:E; cbn.
  - eexists. split; [reflexivity|]. cbn. rewrite <- !app_assoc.
    repeat split.
  - destruct (writeErrs (env s) O) as [e|] eqn:W; cbn;
      (eexists; split; [reflexivity|]; cbn; rewrite <- !app_assoc;
       repeat split).
Qed.

(** C7.  [SendMessage] blocks while the lock is held.  Otherwise it takes the
    lock, sets the write deadline to now plus the configured write deadline,
    and: if that fails, returns that error without writing; else writes one
    frame of the given type and payload and returns the error of the write,
    if any.  In each case it releases the lock before returning, and makes
    no second attempt. *)
Theorem SendMessage_spec (messageType : Z) (message : string) (s : State) :
  let t := TimeAdd (clock (env s) O) (writeDeadline (option_ (client s))) in
  let r := run (SendMessage messageType message) s in
  if mutex (client s) then r = Blocked s
  else
    match setWriteDeadlineErrs (env s) O with
    | Some e =>
        exists s', r = Done (Some e) s' /\
          since s s' = [EvLock; EvSetWriteDeadline t (Some e); EvUnlock] /\
          mutex (client s') = false
    | None =>
        exists s', r = Done (writeErrs (env s) O) s' /\
          since s s' =
            [EvLock; EvSetWriteDeadline t None;
             EvWriteMessage messageType (list_byte_of_string message);
             EvWriteReturn (writeErrs (env s) O); EvUnlock] /\
          mutex (client s') = false /\
          connWriteDeadline (Conn (client s')) = t
    end.
Proof.
  intros t r. subst r t.
  destruct (mutex (client s)) eqn:Hm.
  - unfold SendMessage. cbn. rewrite Hm. reflexivity.
  - destruct (SendMessage_run messageType message s Hm)
      as (s' & Hr & Ht & _ & Hm' & _ & _ & _ & Hw & _).
    unfold sendResult, sendEvents in *.
    destruct (setWriteDeadlineErrs (env s) O) as [e|].
    + exists s'. repeat split; [exact Hr | apply since_app; exact Ht | exact Hm'].
    + exists s'. repeat split;
        [exact Hr | apply since_app; exact Ht | exact Hm' | exact Hw].
Qed.

(* ===================================================================== *)
(** ** heartbeat *)

Lemma sendResult_log ev s : sendResult (log ev s) = sendResult s.
Proof. reflexivity. Qed.

Lemma heartbeat_loop_S n s :
  mutex (client s) = false ->
  run (heartbeat_loop (S n)) s =
  if tickStops s then Done HbReturned (afterTick s)
  else run (heartbeat_loop n) (afterTick s).
Proof.
  intros Hm. cbn [heartbeat_loop].
  rewrite run_bind. cbn [run TickerRecv atomic].
  rewrite run_bind. cbn [run LoadOption atomic].
  rewrite run_bind. unfold afterTick, tickStops.
  destruct (SendMessage_run PingMessage (pingMsg (option_ (client s)))
              (log EvTick s) Hm)
    as (s1 & Hr & _ & Ho & _ & Hf & _).
  cbn [client log option_] in *. rewrite Hr, sendResult_log. cbn [final].
  destruct (sendResult s) as [e|].
  - run_prims.
    cbn [client set_HeartbeatFailTimes set_client HeartbeatFailTimes option_].
    rewrite Hf, Ho.
    destruct (GoInt.incr (HeartbeatFailTimes (client s))
                >? heartbeatFailMaxTimes (option_ (client s)));
      reflexivity.
  - run_prims. rewrite Hf.
    destruct (HeartbeatFailTimes (client s) >? 0).
    + run_prims. rewrite Hf. reflexivity.
    + reflexivity.
Qed.

(** What one iteration leaves behind. *)
Lemma afterTick_facts s :
  mutex (client s) = false ->
  let s' := afterTick s in
  let f := HeartbeatFailTimes (client s) in
  trace s' =
    trace s ++ EvTick :: sendEvents PingMessage (pingMsg (option_ (client s))) s /\
  option_ (client s') = option_ (client s) /\
  mutex (client s') = false /\
  HeartbeatFailTimes (client s') =
    match sendResult s with
    | Some _ => GoInt.incr f
    | None => if f >? 0 then GoInt.decr f else f
    end /\
  setWriteDeadlineErrs (env s') = shift (setWriteDeadlineErrs (env s)) /\
  writeErrs (env s') =
    match setWriteDeadlineErrs (env s) O with
    | Some _ => writeErrs (env s)
    | None => shift (writeErrs (env s))
    end.
Proof.
  intros Hm s' f. subst s' f. unfold afterTick.
  destruct (SendMessage_run PingMessage (pingMsg (option_ (client s)))
              (log EvTick s) Hm)
    as (s1 & Hr & Ht & Ho & Hm1 & Hf & _ & _ & _ & _ & Hsw & Hw & _).
  rewrite Hr. cbn [final].
  cbn [client log option_ trace env] in *.
  assert (Ht' : trace s1 = trace s ++
            EvTick :: sendEvents PingMessage (pingMsg (option_ (client s))) s).
  { rewrite Ht, <- app_assoc. reflexivity. }
  destruct (sendResult s) as [e|];
    [|destruct (HeartbeatFailTimes (client s) >? 0)];
    cbn; repeat split; assumption.
Qed.

Lemma heartbeat_run ticks s :
  0 < pingPeriod (option_ (client s)) ->
  run (heartbeat ticks) s =
  match run (heartbeat_loop ticks) (afterSetup s) with
  | Done HbReturned s' => Done HbReturned (log EvTickerStop s')
  | r => r
  end.
Proof.
  intros Hp. unfold heartbeat.
  rewrite run_bind. cbn [run LoadOption atomic].
  rewrite run_bind. cbn [run NewTicker atomic].
  apply Z.ltb_lt in Hp. rewrite Hp.
  run_prims. rewrite run_bind.
  match goal with
  | |- context [run (heartbeat_loop ticks) ?x] => change x with (afterSetup s)
  end.
  destruct (run (heartbeat_loop ticks) (afterSetup s)) as [[| |] s'|s'];
    reflexivity.
Qed.

Lemma heartbeat_panics ticks s :
  pingPeriod (option_ (client s)) <= 0 ->
  run (heartbeat ticks) s =
  Done HbPanicked (log (EvNewTicker (pingPeriod (option_ (client s)))) s).
Proof.
  intros Hp. unfold heartbeat.
  rewrite run_bind. cbn [run LoadOption atomic].
  rewrite run_bind. cbn [run NewTicker atomic].
  apply Z.ltb_ge in Hp. rewrite Hp. reflexivity.
Qed.

(** *** Counting events *)

Lemma countEv_app f a b : countEv f (a ++ b) = countEv f a + countEv f b.
Proof.
  unfold countEv. rewrite filter_app, length_app. lia.
Qed.

Lemma countEv_cons f ev tr :
  countEv f (ev :: tr) = (if f ev then 1 else 0) + countEv f tr.
Proof.
  unfold countEv. cbn [filter]. destruct (f ev); cbn [length]; lia.
Qed.

Lemma countEv_nonneg f tr : 0 <= countEv f tr.
Proof. unfold countEv. lia. Qed.

Lemma sendEvents_counts mt msg s :
  countEv isLock (sendEvents mt msg s) = 1 /\
  countEv isTick (sendEvents mt msg s) = 0 /\
  countEv isWrite (sendEvents mt msg s) =
    match setWriteDeadlineErrs (env s) O with Some _ => 0 | None => 1 end.
Proof.
  unfold sendEvents.
  destruct (setWriteDeadlineErrs (env s) O); repeat split.
Qed.

Lemma afterSetup_facts s :
  let s' := afterSetup s in
  (exists t, trace s' =
     trace s ++ [EvNewTicker (pingPeriod (option_ (client s)));
                 EvSetReadDeadline t; EvSetPongHandler]) /\
  option_ (client s') = option_ (client s) /\
  mutex (client s') = mutex (client s) /\
  HeartbeatFailTimes (client s') = HeartbeatFailTimes (client s) /\
  setWriteDeadlineErrs (env s') = setWriteDeadlineErrs (env s) /\
  writeErrs (env s') = writeErrs (env s).
Proof.
  cbn. repeat split. eexists. rewrite <- !app_assoc. reflexivity.
Qed.

(** *** Every probe fails *)

Lemma sendResult_fails s :
  probesAlwaysFail (env s) -> sendResult s <> None.
Proof.
  intros H. unfold sendResult. destruct (H O O) as [H0|H0];
    destruct (setWriteDeadlineErrs (env s) O); congruence.
Qed.

Lemma shift_always {A} (P : A -> Prop) (f : nat -> A) :
  (forall j, P (f j)) -> forall j, P (shift f j).
Proof. intros H j. apply H. Qed.

Lemma heartbeat_loop_all_fail n :
  forall s,
    let maxF := heartbeatFailMaxTimes (option_ (client s)) in
    let f := HeartbeatFailTimes (client s) in
    mutex (client s) = false ->
    0 <= f <= maxF ->
    maxF < GoInt.max_int ->
    probesAlwaysFail (env s) ->
    exists s' evs,
      run (heartbeat_loop n) s =
        Done (if maxF + 1 - f <=? Z.of_nat n then HbReturned
              else HbAwaitingTick) s' /\
      trace s' = trace s ++ evs /\
      countEv isTick evs = Z.min (Z.of_nat n) (maxF + 1 - f) /\
      countEv isLock evs = Z.min (Z.of_nat n) (maxF + 1 - f) /\
      ((forall i, setWriteDeadlineErrs (env s) i = None) ->
       countEv isWrite evs = Z.min (Z.of_nat n) (maxF + 1 - f)).
Proof.
  induction n as [|n IH]; intros s maxF f Hm Hf Hmax Hw.
  - exists s, []. cbn [heartbeat_loop run].
    destruct (Z.leb_spec (maxF + 1 - f) (Z.of_nat 0)); [lia|].
    rewrite app_nil_r. repeat split; try (intros _); cbn; lia.
  - rewrite (heartbeat_loop_S n s Hm).
    destruct (afterTick_facts s Hm) as (Ht & Ho & Hm' & Hf' & Hsw & Hw').
    destruct (sendEvents_counts PingMessage (pingMsg (option_ (client s))) s)
      as (Cl & Ct & Cw).
    pose proof (sendResult_fails s Hw) as Hfail.
    unfold tickStops.
    destruct (sendResult s) as [e|]; [clear Hfail|congruence].
    fold f maxF in Hf' |- *.
    assert (Hi : GoInt.incr f = f + 1).
    { apply GoIntFacts.incr_small. unfold GoInt.min_int, GoInt.max_int in *. lia. }
    rewrite Hi in *.
    destruct (Z.gtb_spec (f + 1) maxF) as [Hstop|Hgo].
    + exists (afterTick s), (EvTick :: sendEvents PingMessage
                               (pingMsg (option_ (client s))) s).
      destruct (Z.leb_spec (maxF + 1 - f) (Z.of_nat (S n))); [|lia].
      split; [reflexivity|]. split; [exact Ht|].
      rewrite !countEv_cons, Cl, Ct, Cw. cbn [isTick isLock isWrite].
      repeat split; try (intros Hs; rewrite (Hs O)); lia.
    + destruct (IH (afterTick s)) as (s' & evs & Hr & Ht2 & C1 & C2 & C3).
      * exact Hm'.
      * rewrite Hf', Ho. fold maxF. lia.
      * rewrite Ho. exact Hmax.
      * intros i j. rewrite Hsw, Hw'. unfold shift.
        destruct (setWriteDeadlineErrs (env s) O); apply Hw.
      * rewrite Hf', Ho in *. fold maxF in Hr, C1, C2, C3.
        exists s', ((EvTick :: sendEvents PingMessage
                       (pingMsg (option_ (client s))) s) ++ evs).
        split.
        { rewrite Hr.
          destruct (Z.leb_spec (maxF + 1 - (f + 1)) (Z.of_nat n)),
                   (Z.leb_spec (maxF + 1 - f) (Z.of_nat (S n)));
            try reflexivity; lia. }
        split. { rewrite Ht2, Ht, <- app_assoc. reflexivity. }
        rewrite !countEv_app, !countEv_cons, Cl, Ct, Cw, C1, C2.
        cbn [isTick isLock isWrite].
        repeat split; try lia.
        intros Hs. rewrite C3, (Hs O); [lia|].
        rewrite Hsw. apply shift_always with (P := fun r => r = None). exact Hs.
Qed.

(** *** The session [NewSocket] returns *)

Lemma NewSocket_ok up e opts s :
  NewSocket up e opts = NewSocketOk s ->
  option_ (client s) = resolveOption opts /\
  mutex (client s) = false /\
  HeartbeatFailTimes (client s) = 0 /\
  Conn (client s) = mkWsConn ZeroTime ZeroTime false /\
  env s = e /\
  trace s = [].
Proof.
  unfold NewSocket. fold (resolveOption opts).
  destruct up; [discriminate|].
  destruct (makechanPanics (writeReadBufferSize (resolveOption opts)));
    [discriminate|].
  intros H. injection H as <-. repeat split.
Qed.

(** C1.  On a new session whose every [SendMessage] fails, the monitor
    receives [min ticks (max + 1)] ticks and makes as many [SendMessage]
    calls, whatever the number of ticks the ticker could deliver: it returns
    at the [max + 1]-th failure and sends nothing afterwards.  When setting
    the write deadline succeeds, as many writes are attempted.  Here the
    threshold is a count below the largest [int]. *)
Theorem heartbeat_stops_after_failures
    (e : Env) (opts : list SocketOptionFunc) (s : State) (ticks : nat) :
  let maxF := heartbeatFailMaxTimes (resolveOption opts) in
  NewSocket None e opts = NewSocketOk s ->
  0 < pingPeriod (resolveOption opts) ->
  0 <= maxF < GoInt.max_int ->
  probesAlwaysFail e ->
  exists s',
    run (heartbeat ticks) s =
      Done (if maxF + 1 <=? Z.of_nat ticks then HbReturned else HbAwaitingTick)
        s' /\
    countEv isTick (trace s') = Z.min (Z.of_nat ticks) (maxF + 1) /\
    countEv isLock (trace s') = Z.min (Z.of_nat ticks) (maxF + 1) /\
    ((forall i, setWriteDeadlineErrs e i = None) ->
     countEv isWrite (trace s') = Z.min (Z.of_nat ticks) (maxF + 1)).
Proof.
  intros maxF Hnew Hp Hmax Hw.
  destruct (NewSocket_ok _ _ _ _ Hnew) as (Ho & Hm & Hf & _ & He & Ht).
  rewrite heartbeat_run by (rewrite Ho; exact Hp).
  destruct (afterSetup_facts s) as ((t & Ht0) & Ho0 & Hm0 & Hf0 & Hsw0 & Hw0).
  cbv zeta in *.
  destruct (heartbeat_loop_all_fail ticks (afterSetup s))
    as (s' & evs & Hr & Ht' & C1 & C2 & C3).
  - rewrite Hm0. exact Hm.
  - rewrite Hf0, Hf, Ho0, Ho. fold maxF. lia.
  - rewrite Ho0, Ho. apply Hmax.
  - intros i j. rewrite Hsw0, Hw0, He. apply Hw.
  - rewrite Hf0, Hf, Ho0, Ho, Hsw0, He in *. fold maxF in Hr, C1, C2, C3.
    rewrite Z.sub_0_r in *. rewrite Hr.
    rewrite Ht0, Ht in Ht'. cbn [app] in Ht'.
    destruct (maxF + 1 <=? Z.of_nat ticks).
    + exists (log EvTickerStop s'). split; [reflexivity|].
      cbn [trace log]. rewrite Ht'.
      rewrite <- !app_comm_cons, !countEv_cons, !countEv_app, !countEv_cons.
      cbn [isTick isLock isWrite]. unfold countEv at 2 4 6. cbn [filter length].
      repeat split; [lia|lia|]. intros Hs. specialize (C3 Hs). lia.
    + exists s'. split; [reflexivity|]. rewrite Ht'.
      rewrite !countEv_cons. cbn [isTick isLock isWrite].
      repeat split; [lia|lia|]. intros Hs. specialize (C3 Hs). lia.
Qed.

(** With pingPeriod 10ms and a threshold of 2, on a connection whose writes
    all fail, ten ticks give three pings. *)
Lemma heartbeat_stops_after_failures_witness :
  exists s,
    NewSocket None brokenPipe
      [WithPingPeriod (10 * Duration.Millisecond); WithHeartbeatFailMaxTimes 2]
      = NewSocketOk s /\
    exists s',
      run (heartbeat 10) s = Done HbReturned s' /\
      countEv isTick (trace s') = 3 /\
      countEv isLock (trace s') = 3 /\
      ((forall i, setWriteDeadlineErrs brokenPipe i = None) ->
       countEv isWrite (trace s') = 3).
Proof.
  eexists. split; [reflexivity|].
  apply (heartbeat_stops_after_failures brokenPipe
           [WithPingPeriod (10 * Duration.Millisecond);
            WithHeartbeatFailMaxTimes 2] _ 10).
  - reflexivity.
  - reflexivity.
  - cbn. unfold GoInt.max_int. lia.
  - intros i j. right. discriminate.
Defined.

(** With the default threshold of 4, five writes are attempted, however many
    ticks follow. *)
Example heartbeat_default_threshold_five_writes :
  match NewSocket None brokenPipe [] with
  | NewSocketOk s =>
      map (fun ticks => countEv isWrite (trace (final (run (heartbeat ticks) s))))
        [4; 5; 6; 20]%nat = [4; 5; 5; 5]
  | _ => False
  end.
Proof. vm_compute. reflexivity. Qed.

(** *** The failure counter *)

Lemma heartbeat_loop_counter_nonneg n :
  forall s,
    let maxF := heartbeatFailMaxTimes (option_ (client s)) in
    let f := HeartbeatFailTimes (client s) in
    mutex (client s) = false ->
    maxF < GoInt.max_int ->
    0 <= f -> (f <= maxF \/ f = 0) ->
    exists r s',
      run (heartbeat_loop n) s = Done r s' /\
      0 <= HeartbeatFailTimes (client s').
Proof.
  induction n as [|n IH]; intros s maxF f Hm Hmax Hf0 Hf.
  - exists HbAwaitingTick, s. split; [reflexivity | exact Hf0].
  - rewrite (heartbeat_loop_S n s Hm).
    destruct (afterTick_facts s Hm) as (_ & Ho & Hm' & Hf' & _).
    fold f in Hf'. unfold tickStops. fold f maxF.
    assert (Hi : GoInt.incr f = f + 1).
    { apply GoIntFacts.incr_small. unfold GoInt.min_int, GoInt.max_int in *. lia. }
    destruct (sendResult s) as [e|].
    + rewrite Hi in *. destruct (Z.gtb_spec (f + 1) maxF).
      * exists HbReturned, (afterTick s). split; [reflexivity|]. lia.
      * apply IH; rewrite ?Ho, ?Hf'; fold maxF; try assumption; lia.
    + assert (Hd : 0 <= HeartbeatFailTimes (client (afterTick s)) <= f).
      { rewrite Hf'. destruct (Z.gtb_spec f 0); [|lia].
        rewrite GoIntFacts.decr_pos; unfold GoInt.max_int in *; lia. }
      apply IH; rewrite ?Ho; fold maxF; try assumption; lia.
Qed.

Lemma heartbeat_loop_failures F :
  forall s,
    let maxF := heartbeatFailMaxTimes (option_ (client s)) in
    let f := HeartbeatFailTimes (client s) in
    mutex (client s) = false ->
    maxF <= GoInt.max_int ->
    0 <= f -> f + Z.of_nat F <= maxF ->
    (forall i, setWriteDeadlineErrs (env s) i = None) ->
    (forall j, (j < F)%nat -> writeErrs (env s) j <> None) ->
    exists sF,
      (forall k, run (heartbeat_loop (F + k)) s = run (heartbeat_loop k) sF) /\
      HeartbeatFailTimes (client sF) = f + Z.of_nat F /\
      mutex (client sF) = false /\
      option_ (client sF) = option_ (client s) /\
      (forall i, setWriteDeadlineErrs (env sF) i = None) /\
      (forall j, writeErrs (env sF) j = writeErrs (env s) (F + j)%nat).
Proof.
  induction F as [|F IH]; intros s maxF f Hm Hmax Hf0 Hf Hs Hw.
  - exists s. repeat split; try assumption. lia.
  - destruct (afterTick_facts s Hm) as (_ & Ho & Hm' & Hf' & Hsw & Hw').
    fold f in Hf'. rewrite (Hs O) in Hw'.
    assert (Hres : sendResult s <> None).
    { unfold sendResult. rewrite (Hs O). apply Hw. lia. }
    assert (Hi : GoInt.incr f = f + 1).
    { apply GoIntFacts.incr_small. unfold GoInt.min_int, GoInt.max_int in *. lia. }
    destruct (sendResult s) as [e|] eqn:E; [clear Hres|congruence].
    destruct (IH (afterTick s)) as (sF & Hk & HfF & HmF & HoF & HsF & HwF).
    + exact Hm'.
    + rewrite Ho. exact Hmax.
    + rewrite Hf', Hi. lia.
    + rewrite Hf', Hi, Ho. fold maxF. lia.
    + rewrite Hsw. intros i. apply Hs.
    + rewrite Hw'. intros j Hj. apply Hw. lia.
    + exists sF. repeat split; try assumption.
      * intros k. cbn [Nat.add]. rewrite (heartbeat_loop_S (F + k) s Hm).
        unfold tickStops. rewrite E. fold f maxF. rewrite Hi.
        destruct (Z.gtb_spec (f + 1) maxF); [lia|]. apply Hk.
      * rewrite HfF, Hf', Hi. lia.
      * rewrite HoF. exact Ho.
      * intros j. rewrite HwF, Hw'. reflexivity.
Qed.

Lemma heartbeat_loop_successes K :
  forall s,
    let f := HeartbeatFailTimes (client s) in
    mutex (client s) = false ->
    0 <= f <= GoInt.max_int ->
    (forall i, setWriteDeadlineErrs (env s) i = None) ->
    (forall j, (j < K)%nat -> writeErrs (env s) j = None) ->
    exists s',
      run (heartbeat_loop K) s = Done HbAwaitingTick s' /\
      HeartbeatFailTimes (client s') = Z.max (f - Z.of_nat K) 0.
Proof.
  induction K as [|K IH]; intros s f Hm Hf Hs Hw.
  - exists s. split; [reflexivity|]. lia.
  - destruct (afterTick_facts s Hm) as (_ & Ho & Hm' & Hf' & Hsw & Hw').
    fold f in Hf'. rewrite (Hs O) in Hw'.
    assert (E : sendResult s = None).
    { unfold sendResult. rewrite (Hs O). apply Hw. lia. }
    rewrite E in Hf'.
    assert (Hd : HeartbeatFailTimes (client (afterTick s)) = Z.max (f - 1) 0).
    { rewrite Hf'. destruct (Z.gtb_spec f 0); [|lia].
      rewrite GoIntFacts.decr_pos; lia. }
    destruct (IH (afterTick s)) as (s' & Hr & Hf2).
    + exact Hm'.
    + rewrite Hd. lia.
    + rewrite Hsw. intros i. apply Hs.
    + rewrite Hw'. intros j Hj. apply Hw. lia.
    + exists s'. split.
      * rewrite (heartbeat_loop_S K s Hm). unfold tickStops. rewrite E. exact Hr.
      * rewrite Hf2, Hd. lia.
Qed.

(** C2.  On a new session the failure counter is 0.  However the probes
    turn out, it is never negative.  One iteration of the loop adds exactly 1
    when the probe fails, and takes exactly 1 off when the probe succeeds and
    the counter is positive.  So when the first [F] probes fail, with [F] at
    most the threshold, and the next [K] succeed, the counter is [n] after
    [n <= F] ticks and [max (F - k) 0] after [F + k] ticks, for [k <= K], the
    monitor still running.  (The threshold is below the largest [int].) *)
Theorem heartbeat_failure_counter
    (e : Env) (opts : list SocketOptionFunc) (s : State) :
  let maxF := heartbeatFailMaxTimes (resolveOption opts) in
  NewSocket None e opts = NewSocketOk s ->
  0 < pingPeriod (resolveOption opts) ->
  maxF < GoInt.max_int ->
  HeartbeatFailTimes (client s) = 0 /\
  (forall ticks, exists r s',
      run (heartbeat ticks) s = Done r s' /\
      0 <= HeartbeatFailTimes (client s')) /\
  (forall s1,
      let f := HeartbeatFailTimes (client s1) in
      mutex (client s1) = false ->
      0 <= f < GoInt.max_int ->
      HeartbeatFailTimes (client (final (run (heartbeat_loop 1) s1))) =
        match sendResult s1 with
        | Some _ => f + 1
        | None => if f >? 0 then f - 1 else f
        end) /\
  (forall F K : nat,
      Z.of_nat F <= maxF ->
      (forall i, setWriteDeadlineErrs e i = None) ->
      (forall j, (j < F)%nat -> writeErrs e j <> None) ->
      (forall j, (F <= j < F + K)%nat -> writeErrs e j = None) ->
      (forall n, (n <= F)%nat -> exists s',
          run (heartbeat n) s = Done HbAwaitingTick s' /\
          HeartbeatFailTimes (client s') = Z.of_nat n) /\
      (forall k, (k <= K)%nat -> exists s',
          run (heartbeat (F + k)) s = Done HbAwaitingTick s' /\
          HeartbeatFailTimes (client s') =
            Z.max (Z.of_nat F - Z.of_nat k) 0)).
Proof.
  intros maxF Hnew Hp Hmax.
  destruct (NewSocket_ok _ _ _ _ Hnew) as (Ho & Hm & Hf & _ & He & _).
  destruct (afterSetup_facts s) as (_ & Ho0 & Hm0 & Hf0 & Hsw0 & Hw0).
  cbv zeta in *. rewrite Hm in Hm0. rewrite Hf in Hf0. rewrite Ho in Ho0.
  rewrite He in Hsw0, Hw0.
  assert (Hp' : 0 < pingPeriod (option_ (client s))) by (rewrite Ho; exact Hp).
  split; [exact Hf|]. split; [|split].
  - intros ticks. rewrite (heartbeat_run ticks s Hp').
    destruct (heartbeat_loop_counter_nonneg ticks (afterSetup s))
      as (r & s' & Hr & Hnn);
      rewrite ?Ho0, ?Hf0; try assumption; try lia.
    rewrite Hr. destruct r; eauto.
  - intros s1 Hm1 Hf1. rewrite (heartbeat_loop_S 0 s1 Hm1).
    destruct (afterTick_facts s1 Hm1) as (_ & _ & _ & Hf' & _).
    set (f := HeartbeatFailTimes (client s1)) in *.
    replace (final (if tickStops s1 then Done HbReturned (afterTick s1)
                    else run (heartbeat_loop 0) (afterTick s1)))
      with (afterTick s1) by (destruct (tickStops s1); reflexivity).
    rewrite Hf'. destruct (sendResult s1).
    + apply GoIntFacts.incr_small. unfold GoInt.min_int, GoInt.max_int in *. lia.
    + destruct (Z.gtb_spec f 0); [|reflexivity].
      apply GoIntFacts.decr_pos. lia.
  - intros F K HF Hs HwF HwK. split.
    + intros n Hn. rewrite (heartbeat_run n s Hp').
      destruct (heartbeat_loop_failures n (afterSetup s))
        as (sn & Hk & Hfn & _);
        rewrite ?Ho0, ?Hf0, ?Hsw0, ?Hw0; fold maxF;
        try assumption; try lia.
      { intros j Hj. apply HwF. lia. }
      exists sn. specialize (Hk O). rewrite Nat.add_0_r in Hk.
      rewrite Hk. cbn [heartbeat_loop run]. split; [reflexivity|].
      rewrite Hfn, Hf0. lia.
    + intros k Hk. rewrite (heartbeat_run (F + k) s Hp').
      destruct (heartbeat_loop_failures F (afterSetup s))
        as (sF & HkF & HfF & HmF & _ & HsF & HwsF);
        rewrite ?Ho0, ?Hf0, ?Hsw0, ?Hw0; fold maxF;
        try assumption; try lia.
      rewrite Hf0, Hw0 in *.
      destruct (heartbeat_loop_successes k sF) as (s' & Hr & Hf').
      * exact HmF.
      * rewrite HfF. unfold GoInt.max_int in *. lia.
      * exact HsF.
      * intros j Hj. rewrite HwsF. apply HwK. lia.
      * exists s'. rewrite HkF, Hr. split; [reflexivity|].
        rewrite Hf', HfF. lia.
Qed.

(** Three failed probes, then probes that succeed, under the default
    threshold of 4: the counter goes 0, 1, 2, 3, 2, 1, 0, 0. *)
Lemma heartbeat_failure_counter_witness :
  exists s,
    NewSocket None (flaky 3) [] = NewSocketOk s /\
    HeartbeatFailTimes (client s) = 0 /\
    (forall n, (n <= 3)%nat -> exists s',
        run (heartbeat n) s = Done HbAwaitingTick s' /\
        HeartbeatFailTimes (client s') = Z.of_nat n) /\
    (forall k, (k <= 4)%nat -> exists s',
        run (heartbeat (3 + k)) s = Done HbAwaitingTick s' /\
        HeartbeatFailTimes (client s') = Z.max (3 - Z.of_nat k) 0).
Proof.
  eexists. split; [reflexivity|].
  destruct (heartbeat_failure_counter (flaky 3) [] _ eq_refl)
    as (H0 & _ & _ & HFK).
  - reflexivity.
  - reflexivity.
  - split; [exact H0|].
    apply (HFK 3%nat 4%nat).
    + cbn. lia.
    + reflexivity.
    + intros j Hj. unfold flaky. cbn [writeErrs].
      destruct (Nat.ltb_spec j 3); [discriminate | lia].
    + intros j Hj. unfold flaky. cbn [writeErrs].
      destruct (Nat.ltb_spec j 3); [lia | reflexivity].
Defined.

(* ===================================================================== *)
(** ** The pong handler and ReadMessage *)

Lemma handlerCalls_app a b :
  handlerCalls (a ++ b) = handlerCalls a ++ handlerCalls b.
Proof.
  induction a as [|ev a IH]; [reflexivity|].
  destruct ev; cbn; rewrite ?IH; reflexivity.
Qed.

Lemma pongHandler_run d s :
  exists s',
    run (pongHandler d) s = Done None s' /\
    trace s' = trace s ++ [EvSetReadDeadline (pongDeadline s)] /\
    connReadDeadline (Conn (client s')) = pongDeadline s /\
    connPongHandler (Conn (client s')) = connPongHandler (Conn (client s)) /\
    option_ (client s') = option_ (client s) /\
    mutex (client s') = mutex (client s) /\
    HeartbeatFailTimes (client s') = HeartbeatFailTimes (client s) /\
    inbound (env s') = inbound (env s).
Proof.
  unfold pongHandler, pongDeadline. run_prims.
  destruct (readDeadline (option_ (client s)) >? Duration.Nanosecond);
    run_prims; eexists; (split; [reflexivity|]); cbn; repeat split.
Qed.

(** One [ReadMessage] call logs the pong handler's deadline settings, the
    library's replies to ping and close frames and, when it returns, its
    result; it touches neither the lock, the configuration nor the failure
    counter. *)
Lemma readMessage_facts l :
  forall s,
    let s' := stepState (readMessage l s) in
    exists evs,
      trace s' =
        trace s ++ evs ++
        match readMessage l s with
        | Yield _ r => [EvReadMessage r]
        | Wait _ => []
        end /\
      forallb quiet evs = true /\
      filter isReadOrHandler evs = [] /\
      option_ (client s') = option_ (client s) /\
      mutex (client s') = mutex (client s) /\
      HeartbeatFailTimes (client s') = HeartbeatFailTimes (client s).
Proof.
  induction l as [|i l IH]; intros s; cbv zeta.
  - exists []. cbn. rewrite app_nil_r. repeat split.
  - destruct i as [mt data|d|err|v|d reply|code text cerr]; cbn [readMessage].
    + exists []. cbn. repeat split.
    + destruct (connPongHandler (Conn (client s))).
      * destruct (pongHandler_run d (set_inbound l s))
          as (sp & Hr & Ht & _ & _ & Ho & Hm & Hf & _).
        rewrite Hr.
        destruct (IH sp) as (evs & Ht' & Hq & Hn & Ho' & Hm' & Hf').
        exists (EvSetReadDeadline (pongDeadline (set_inbound l s)) :: evs).
        rewrite Ht', Ht, Ho', Hm', Hf', Ho, Hm, Hf. cbn.
        rewrite <- !app_assoc. repeat split; assumption.
      * destruct (IH (set_inbound l s))
          as (evs & Ht' & Hq & Hn & Ho' & Hm' & Hf').
        exists evs. rewrite Ht', Ho', Hm', Hf'. repeat split; assumption.
    + exists []. cbn. repeat split.
    + exists []. cbn. repeat split.
    + destruct reply as [perr|].
      * exists [EvWriteControl PongMessage (list_byte_of_string d)].
        cbn. rewrite <- app_assoc. repeat split.
      * cbv zeta.
        destruct (IH (log (EvWriteControl PongMessage (list_byte_of_string d))
                        (set_inbound l s)))
          as (evs & Ht' & Hq & Hn & Ho' & Hm' & Hf').
        exists (EvWriteControl PongMessage (list_byte_of_string d) :: evs).
        rewrite Ht', Ho', Hm', Hf'. cbn.
        rewrite <- !app_assoc. repeat split; assumption.
    + exists [EvWriteControl CloseMessage (closePayload code)].
      cbn. rewrite <- app_assoc. repeat split.
Qed.


(* ===================================================================== *)
(** ** ReadPump *)

Lemma ReadPump_loop_S handler fuel s :
  run (ReadPump_loop handler (S fuel)) s =
  match readMessage (inbound (env s)) s with
  | Wait s1 => Blocked s1
  | Yield s1 (ReadPanic v) => Done (Panicking v) s1
  | Yield s1 (ReadErr err) =>
      let p := handler (handlerCalls (trace s1)) (OnError err) in
      let s2 := log (EvHandler (OnError err) p) s1 in
      match p with
      | Some v => Done (Panicking v) s2
      | None => Done Break s2
      end
  | Yield s1 (ReadOk mt data) =>
      let p := handler (handlerCalls (trace s1)) (OnMessage mt data) in
      let s2 := log (EvHandler (OnMessage mt data) p) s1 in
      match p with
      | Some v => Done (Panicking v) s2
      | None => run (ReadPump_loop handler fuel) s2
      end
  end.
Proof.
  cbn [ReadPump_loop]. rewrite run_bind. cbn [run ConnReadMessage atomic].
  destruct (readMessage (inbound (env s)) s) as [s1 [mt data|err|v]|s1];
    [| |reflexivity|reflexivity].
  - run_prims.
    destruct (handler (handlerCalls (trace s1)) (OnMessage mt data));
      reflexivity.
  - run_prims.
    destruct (handler (handlerCalls (trace s1)) (OnError err)); reflexivity.
Qed.


Lemma handlerCalls_filter tr :
  handlerCalls (filter isReadOrHandler tr) = handlerCalls tr.
Proof.
  induction tr as [|ev tr IH]; [reflexivity|].
  destruct ev; cbn; rewrite ?IH; reflexivity.
Qed.

Lemma handlerCalls_deliveries frames :
  handlerCalls (deliveries frames) =
  map (fun f => OnMessage (fst f) (snd f)) frames.
Proof.
  induction frames as [|f frames IH]; [reflexivity|].
  cbn. rewrite <- IH. reflexivity.
Qed.



(** *** Faults *)

Lemma handlerCalls_quiet evs :
  filter isReadOrHandler evs = [] -> handlerCalls evs = [].
Proof.
  intros H. rewrite <- handlerCalls_filter, H. reflexivity.
Qed.

(** Whatever the handler does, the loop calls [OnMessage] and [OnError]
    only, and when it breaks its last two steps are the failed read and the
    [OnError] call that reports it. *)
Lemma ReadPump_loop_calls handler fuel :
  forall s,
    exists evs,
      trace (final (run (ReadPump_loop handler fuel) s)) = trace s ++ evs /\
      ~ In OnClose (handlerCalls evs) /\
      (forall s1, run (ReadPump_loop handler fuel) s = Done Break s1 ->
         exists evs0 e,
           evs = evs0 ++ [EvReadMessage (ReadErr e); EvHandler (OnError e) None]).
Proof.
  induction fuel as [|fuel IH]; intros s.
  - exists []. cbn. rewrite app_nil_r. repeat split; [tauto | discriminate].
  - rewrite ReadPump_loop_S.
    destruct (readMessage_facts (inbound (env s)) s)
      as (evs & Ht & _ & Hn & _).
    cbv zeta in Ht. apply handlerCalls_quiet in Hn.
    destruct (readMessage (inbound (env s)) s) as [s1 [mt data|err|v]|s1];
      cbn [stepState] in Ht; cbv zeta.
    + destruct (handler (handlerCalls (trace s1)) (OnMessage mt data)) as [v|].
      * exists (evs ++ [EvReadMessage (ReadOk mt data);
                        EvHandler (OnMessage mt data) (Some v)]).
        cbn [final trace log]. rewrite Ht, <- !app_assoc.
        split; [reflexivity|]. split; [|discriminate].
        rewrite handlerCalls_app, Hn. cbn. intuition discriminate.
      * destruct (IH (log (EvHandler (OnMessage mt data) None) s1))
          as (evs' & Ht' & Hno & Hbr).
        exists (evs ++ [EvReadMessage (ReadOk mt data);
                        EvHandler (OnMessage mt data) None] ++ evs').
        rewrite Ht'. cbn [trace log]. rewrite Ht, <- !app_assoc.
        split; [reflexivity|]. split.
        { rewrite !handlerCalls_app, Hn. cbn. intros [H|H]; [discriminate|].
          exact (Hno H). }
        intros s2 Hs2. destruct (Hbr s2 Hs2) as (evs0 & e & ->).
        exists (evs ++ [EvReadMessage (ReadOk mt data);
                        EvHandler (OnMessage mt data) None] ++ evs0), e.
        rewrite <- !app_assoc. reflexivity.
    + destruct (handler (handlerCalls (trace s1)) (OnError err)) as [v|].
      * exists (evs ++ [EvReadMessage (ReadErr err);
                        EvHandler (OnError err) (Some v)]).
        cbn [final trace log]. rewrite Ht, <- !app_assoc.
        split; [reflexivity|]. split; [|discriminate].
        rewrite handlerCalls_app, Hn. cbn. intuition discriminate.
      * exists (evs ++ [EvReadMessage (ReadErr err);
                        EvHandler (OnError err) None]).
        cbn [final trace log]. rewrite Ht, <- !app_assoc.
        split; [reflexivity|]. split.
        { rewrite handlerCalls_app, Hn. cbn. intuition discriminate. }
        intros _ _. exists evs, err. reflexivity.
    + exists (evs ++ [EvReadMessage (ReadPanic v)]).
      cbn [final]. rewrite Ht. split; [reflexivity|]. split; [|discriminate].
      rewrite handlerCalls_app, Hn. cbn. tauto.
    + exists evs. cbn [final]. rewrite Ht, app_nil_r.
      split; [reflexivity|]. split; [|discriminate].
      rewrite Hn. cbn. tauto.
Qed.

(** C6, as stated, fails for a handler whose [OnError] panics.  On the sample
    traffic the read error is reported by [OnError], whose panic unwinds the
    loop; the deferred function calls [OnError] again, which panics again,
    and [ReadPump] is left without [OnClose] having been called. *)
Lemma ReadPump_fault_without_OnClose :
  ~ onCloseIffFault brittleHandler 3
      (newClient (resolveOption []) (trafficEnv sampleTraffic)).
Proof.
  unfold onCloseIffFault. intros [_ H].
  assert (Hin : In OnClose
             (handlerCalls
                (since (newClient (resolveOption []) (trafficEnv sampleTraffic))
                   (final (run (ReadPump brittleHandler 3)
                             (newClient (resolveOption [])
                                (trafficEnv sampleTraffic)))))))
    by (apply H; eexists _, _; vm_compute; reflexivity).
  vm_compute in Hin. intuition discriminate.
Qed.

(** C6, as amended.  [ReadPump] calls [OnClose] exactly when a panic is
    raised in its loop (by [ReadMessage] or by a call of the handler) and
    the [OnError] call that the deferred function then makes, with the panic
    value as the error, returns.  In that case these two are its last
    handler calls, after which [ReadPump] is left.  If that [OnError] call
    panics, it is the last call and its panic leaves [ReadPump].  When the
    loop ends at [break] after a read error, [ReadPump] returns with
    [OnError] for that error as its last call and without calling
    [OnClose]. *)
Theorem ReadPump_OnClose_iff_recovered_fault
    (handler : MessageHandler) (fuel : nat) (s : State) :
  let loop := run (ReadPump_loop handler fuel) s in
  let r := run (ReadPump handler fuel) s in
  let calls := handlerCalls (since s (final r)) in
  (In OnClose calls <->
   exists v s1,
     loop = Done (Panicking v) s1 /\
     handler (handlerCalls (trace s1)) (OnError (errorOfPanic v)) = None) /\
  (forall v s1, loop = Done (Panicking v) s1 ->
     match handler (handlerCalls (trace s1)) (OnError (errorOfPanic v)) with
     | None =>
         let p := handler (handlerCalls (trace s1) ++ [OnError (errorOfPanic v)])
                    OnClose in
         since s1 (final r) =
           [EvHandler (OnError (errorOfPanic v)) None; EvHandler OnClose p] /\
         exists s2,
           r = Done (match p with
                     | None => RpReturned
                     | Some v' => RpPanicked v'
                     end) s2
     | Some v' =>
         since s1 (final r) = [EvHandler (OnError (errorOfPanic v)) (Some v')] /\
         exists s2, r = Done (RpPanicked v') s2
     end) /\
  (forall s1, loop = Done Break s1 ->
     r = Done RpReturned s1 /\
     ~ In OnClose calls /\
     exists evs0 e,
       since s s1 =
         evs0 ++ [EvReadMessage (ReadErr e); EvHandler (OnError e) None]).
Proof.
  intros loop r calls. subst loop r calls. unfold ReadPump.
  rewrite run_bind.
  destruct (ReadPump_loop_calls handler fuel s) as (evs & Ht & Hno & Hbr).
  destruct (run (ReadPump_loop handler fuel) s) as [[|v|] s1|s1] eqn:Hloop;
    cbn [final] in Ht.
  - (* break *)
    cbn [run final]. rewrite (since_app _ _ _ Ht). split; [|split].
    + split; [intros H; contradiction | intros (v & s2 & H & _); discriminate].
    + intros v s2 H. discriminate.
    + intros s2 H. injection H as <-. split; [reflexivity|].
      split; [exact Hno|]. rewrite (since_app _ _ _ Ht).
      apply (Hbr s1). reflexivity.
  - (* a panic unwinds the loop *)
    run_prims.
    destruct (handler (handlerCalls (trace s1)) (OnError (errorOfPanic v)))
      as [v1|] eqn:Hp1.
    + (* the deferred [OnError] panics *)
      cbn [run final].
      set (s2 := log (EvHandler (OnError (errorOfPanic v)) (Some v1)) s1).
      assert (Ht2 : trace s2 = trace s1 ++
                [EvHandler (OnError (errorOfPanic v)) (Some v1)])
        by reflexivity.
      split; [|split].
      * split.
        -- rewrite (since_app s s2
                      (evs ++ [EvHandler (OnError (errorOfPanic v)) (Some v1)])).
           ++ rewrite handlerCalls_app. intros Hin.
              apply in_app_or in Hin. destruct Hin as [Hin|Hin];
                [contradiction|]. cbn in Hin. intuition discriminate.
           ++ rewrite Ht2, Ht, <- app_assoc. reflexivity.
        -- intros (v' & s1' & H & Hn). injection H as <- <-.
           rewrite Hp1 in Hn. discriminate.
      * intros v' s1' H. injection H as <- <-. rewrite Hp1.
        split; [apply since_app; exact Ht2|].
        exists s2. reflexivity.
      * intros s1' H. discriminate.
    + (* it returns, and [OnClose] is called *)
      run_prims.
      cbn [trace log]. rewrite handlerCalls_app. cbn [handlerCalls].
      set (p := handler (handlerCalls (trace s1) ++ [OnError (errorOfPanic v)])
                  OnClose).
      set (s2 := log (EvHandler OnClose p)
                   (log (EvHandler (OnError (errorOfPanic v)) None) s1)).
      assert (Hrun : run (match p with
                          | Some v' => Ret (RpPanicked v')
                          | None => Ret RpReturned
                          end) s2 =
                     Done (match p with
                           | None => RpReturned
                           | Some v' => RpPanicked v'
                           end) s2) by (destruct p; reflexivity).
      rewrite Hrun. cbn [final].
      assert (Ht2 : trace s2 = trace s1 ++
                [EvHandler (OnError (errorOfPanic v)) None; EvHandler OnClose p]).
      { subst s2. cbn. rewrite <- app_assoc. reflexivity. }
      split; [|split].
      * split; [intros _; eauto|]. intros _.
        rewrite (since_app s s2
                   (evs ++ [EvHandler (OnError (errorOfPanic v)) None;
                            EvHandler OnClose p])).
        -- rewrite handlerCalls_app. apply in_or_app. right. cbn. tauto.
        -- rewrite Ht2, Ht, <- app_assoc. reflexivity.
      * intros v' s1' H. injection H as <- <-. rewrite Hp1. fold p.
        split; [apply since_app; exact Ht2|].
        exists s2. reflexivity.
      * intros s1' H. discriminate.
  - (* still looping *)
    cbn [run final]. rewrite (since_app _ _ _ Ht). split; [|split].
    + split; [intros H; contradiction | intros (v & s2 & H & _); discriminate].
    + intros v s2 H. discriminate.
    + intros s2 H. discriminate.
  - (* waiting in the read *)
    cbn [final]. rewrite (since_app _ _ _ Ht). split; [|split].
    + split; [intros H; contradiction | intros (v & s2 & H & _); discriminate].
    + intros v s2 H. discriminate.
    + intros s2 H. discriminate.
Qed.

(* ===================================================================== *)
(** ** The write protocol *)

Lemma stepOk_refl h s : stepOk h h s s.
Proof.
  unfold stepOk. split; [reflexivity|]. split; [destruct h; reflexivity|].
  exists []. rewrite app_nil_r. split; [reflexivity|]. left. split; reflexivity.
Qed.

Lemma stepOk_quiet h s s' evs :
  trace s' = trace s ++ evs ->
  forallb quiet evs = true ->
  option_ (client s') = option_ (client s) ->
  mutex (client s') = mutex (client s) ->
  stepOk h h s s'.
Proof.
  intros Ht Hq Ho Hm. unfold stepOk. split; [exact Ho|].
  split; [destruct h; exact Hm|].
  exists evs. split; [exact Ht|]. left. split; [reflexivity | exact Hq].
Qed.

Lemma stepOk_move h h' ev s s' :
  trace s' = trace s ++ [ev] ->
  quiet ev = false ->
  protocol h ev = Some h' ->
  option_ (client s') = option_ (client s) ->
  mutexOk h h' (mutex (client s)) (mutex (client s')) ->
  stepOk h h' s s'.
Proof.
  intros Ht Hq Hp Ho Hm. unfold stepOk. split; [exact Ho|].
  split; [exact Hm|]. exists [ev]. split; [exact Ht|]. right.
  exists ev. repeat split; assumption.
Qed.

Lemma follows_bind {A B} (p : prog A) (f : A -> prog B) h :
  follows h p ->
  (forall a, follows Out (f a)) ->
  follows h (bind p f).
Proof.
  intros Hp Hf. revert h Hp.
  induction p as [a|X act k IH]; intros h Hp; cbn in *.
  - subst h. apply Hf.
  - intros s. specialize (Hp s). destruct (act s) as [s' x|s'].
    + destruct Hp as (h' & Hs & Hk). exists h'. split; [exact Hs|].
      apply IH. exact Hk.
    + exact Hp.
Qed.

(** A step that logs at most events foreign to the write side. *)
Ltac quiet_step :=
  first
    [ apply stepOk_refl
    | eapply (stepOk_quiet _ _ _ [_]); [reflexivity..]
    | eapply (stepOk_quiet _ _ _ []);
      [cbn; rewrite app_nil_r; reflexivity | reflexivity..] ].

(** A move of the protocol. *)
Ltac move_step :=
  eapply stepOk_move;
  [ reflexivity | reflexivity | reflexivity | reflexivity
  | cbn; auto ].

Lemma SendMessage_follows mt msg : follows Out (SendMessage mt msg).
Proof.
  unfold SendMessage. cbn. intros s.
  destruct (mutex (client s)) eqn:Hm; [quiet_step|].
  exists Held. split; [move_step|].
  intros s1. exists Held. split; [quiet_step|].
  intros s2. exists Held. split; [quiet_step|].
  intros s3. exists Held. split.
  { destruct (setWriteDeadlineErrs (env s3) O); move_step. }
  assert (Hunlock : forall r : option error,
             follows Held (Unlock ;; Ret r)).
  { intros r. cbn. intros s4. destruct (mutex (client s4)); [|quiet_step].
    exists Out. split; [move_step | reflexivity]. }
  destruct (setWriteDeadlineErrs (env s3) O) as [e|]; cbn.
  - apply (Hunlock (Some e)).
  - intros s4. exists Writing. split; [move_step|].
    intros s5. exists Held. split; [move_step|].
    destruct (writeErrs (env s5) O) as [e|]; cbn.
    + apply (Hunlock (Some e)).
    + apply (Hunlock None).
Qed.

Lemma follows_atomic_quiet {X} (act : State -> Step X) :
  (forall s, stepOk Out Out s (stepState (act s))) ->
  follows Out (atomic act).
Proof.
  intros H. cbn. intros s. specialize (H s).
  destruct (act s) as [s' x|s']; cbn [stepState] in H.
  - exists Out. split; [exact H | reflexivity].
  - exact H.
Qed.

Lemma ConnReadMessage_follows : follows Out ConnReadMessage.
Proof.
  apply follows_atomic_quiet. intros s.
  destruct (readMessage_facts (inbound (env s)) s)
    as (evs & Ht & Hq & _ & Ho & Hm & _).
  cbv zeta in *.
  eapply stepOk_quiet; [exact Ht | | exact Ho | exact Hm].
  rewrite forallb_app, Hq.
  destruct (readMessage (inbound (env s)) s); reflexivity.
Qed.

(** The programs of this file are built from these steps. *)
Ltac follow :=
  repeat first
    [ apply SendMessage_follows
    | apply ConnReadMessage_follows
    | apply follows_atomic_quiet; intros ?; cbn [stepState]; quiet_step
    | apply follows_bind; [|intros ?]
    | reflexivity ].

Lemma pongHandler_follows d : follows Out (pongHandler d).
Proof.
  unfold pongHandler. apply follows_bind; [follow|]. intros opt.
  apply follows_bind; [|intros ?; reflexivity].
  destruct (readDeadline opt >? Duration.Nanosecond); follow.
Qed.

Lemma heartbeat_loop_follows ticks : follows Out (heartbeat_loop ticks).
Proof.
  induction ticks as [|n IH]; [reflexivity|].
  cbn [heartbeat_loop].
  apply follows_bind; [follow|]. intros _.
  apply follows_bind; [follow|]. intros opt.
  apply follows_bind; [follow|]. intros [e|].
  - apply follows_bind; [follow|]. intros f.
    apply follows_bind; [follow|]. intros _.
    apply follows_bind; [follow|]. intros f'.
    apply follows_bind; [follow|]. intros opt'.
    destruct (f' >? heartbeatFailMaxTimes opt'); [reflexivity | exact IH].
  - apply follows_bind; [follow|]. intros f.
    apply follows_bind; [|intros _; exact IH].
    destruct (f >? 0); follow.
Qed.

Lemma heartbeat_follows ticks : follows Out (heartbeat ticks).
Proof.
  unfold heartbeat.
  apply follows_bind; [follow|]. intros opt.
  apply follows_bind; [follow|]. intros [|]; [|reflexivity].
  apply follows_bind; [follow|]. intros now.
  apply follows_bind; [follow|]. intros opt'.
  apply follows_bind; [follow|]. intros _.
  apply follows_bind; [follow|]. intros _.
  apply follows_bind; [apply heartbeat_loop_follows|].
  intros [| |]; follow.
Qed.

Lemma ReadPump_loop_follows handler fuel :
  follows Out (ReadPump_loop handler fuel).
Proof.
  induction fuel as [|n IH]; [reflexivity|].
  cbn [ReadPump_loop].
  apply follows_bind; [follow|]. intros [mt data|err|v].
  - apply follows_bind; [follow|]. intros [v|]; [reflexivity | exact IH].
  - apply follows_bind; [follow|]. intros [v|]; reflexivity.
  - reflexivity.
Qed.

Lemma ReadPump_follows handler fuel : follows Out (ReadPump handler fuel).
Proof.
  unfold ReadPump.
  apply follows_bind; [apply ReadPump_loop_follows|].
  intros [|v|]; try reflexivity.
  apply follows_bind; [follow|]. intros [v'|]; [reflexivity|].
  apply follows_bind; [follow|]. intros [v'|]; reflexivity.
Qed.

(** A program that follows the protocol leaves the configuration as it
    found it, however far it runs. *)
Lemma follows_run_option {A} (p : prog A) :
  forall h s,
    follows h p ->
    option_ (client (final (run p s))) = option_ (client s).
Proof.
  induction p as [a|X act k IH]; intros h s Hp; cbn in *; [reflexivity|].
  specialize (Hp s). destruct (act s) as [s' x|s'].
  - destruct Hp as (h' & (Ho & _) & Hk). rewrite (IH x h' s' Hk). exact Ho.
  - destruct Hp as (Ho & _). exact Ho.
Qed.

(** One step of such a program, among other goroutines. *)
Lemma follows_step {A} (p p' : prog A) h s s' :
  follows h p ->
  step p s = Some (s', p') ->
  exists h', stepOk h h' s s' /\ follows h' p'.
Proof.
  intros Hp Hs. destruct p as [a|X act k]; [discriminate|].
  cbn in Hs. pose proof (Hp s) as Hps. cbn in Hps.
  destruct (act s) as [s1 x|s1]; injection Hs as <- <-.
  - exact Hps.
  - exists h. split; [exact Hps | exact Hp].
Qed.

(* ===================================================================== *)
(** ** Goroutines side by side: the invariant *)

Lemma merge_swap a b r : merge a (merge b r) = merge b (merge a r).
Proof. destruct a, b, r as [[| |]|]; reflexivity. Qed.

Lemma joint_insert hs1 h hs2 :
  joint (hs1 ++ h :: hs2) = merge h (joint (hs1 ++ hs2)).
Proof.
  induction hs1 as [|a hs1 IH]; [reflexivity|].
  cbn [app joint]. rewrite IH. apply merge_swap.
Qed.

Lemma protocolRun_None tr :
  fold_left (fun st ev => match st with Some h => protocol h ev | None => None end)
    tr None = None.
Proof. induction tr as [|ev tr IH]; [reflexivity | exact IH]. Qed.

Lemma protocolRun_app h a b :
  protocolRun h (a ++ b) =
  match protocolRun h a with
  | Some h' => protocolRun h' b
  | None => None
  end.
Proof.
  unfold protocolRun. rewrite fold_left_app.
  destruct (fold_left _ a (Some h)); [reflexivity | apply protocolRun_None].
Qed.

Lemma protocolRun_quiet h evs :
  forallb quiet evs = true -> protocolRun h evs = Some h.
Proof.
  induction evs as [|ev evs IH]; [reflexivity|].
  cbn [forallb]. intros H. apply andb_prop in H. destruct H as [Hq H].
  change (protocolRun h (ev :: evs)) with (protocolRun h ([ev] ++ evs)).
  rewrite protocolRun_app.
  assert (Hev : protocolRun h [ev] = Some h)
    by (destruct ev; try discriminate; reflexivity).
  rewrite Hev. apply IH. exact H.
Qed.

Lemma protocolRun_prefix h a b g :
  protocolRun h (a ++ b) = Some g -> exists g', protocolRun h a = Some g'.
Proof.
  rewrite protocolRun_app. destruct (protocolRun h a) as [g'|];
    [eauto | discriminate].
Qed.

(** In a trace that obeys the protocol, a write is in flight exactly when
    the protocol stands at [Writing]. *)
Lemma protocolRun_inFlight tr :
  forall g,
    protocolRun Out tr = Some g ->
    inFlight tr = match g with Writing => 1 | _ => 0 end.
Proof.
  induction tr as [|ev tr IH] using rev_ind; intros g H.
  - injection H as <-. reflexivity.
  - rewrite protocolRun_app in H.
    destruct (protocolRun Out tr) as [g0|]; [|discriminate].
    specialize (IH g0 eq_refl). unfold inFlight in *.
    rewrite !countEv_app, !countEv_cons.
    change (countEv isWrite []) with 0.
    change (countEv isWriteReturn []) with 0.
    cbn in H.
    destruct ev, g0; cbn in H; try discriminate; injection H as <-;
      cbn [isWrite isWriteReturn]; lia.
Qed.

Lemma poolInv_init s ticks :
  mutex (client s) = false ->
  trace s = [] ->
  poolInv (s, [Go (heartbeat ticks)]).
Proof.
  intros Hm Ht. exists [Out], Out. cbn. rewrite Hm, Ht.
  repeat split. constructor; [apply heartbeat_follows | constructor].
Qed.

Lemma poolInv_step c c' : poolInv c -> poolStep c c' -> poolInv c'.
Proof.
  intros (hs & g & Hall & Hj & Hp & Hm) Hstep.
  destruct Hstep as [s ts g0 Hcall | s s' ts1 ts2 A p p' Hs]; cbn [fst snd] in *.
  - (* the application starts a call *)
    exists (hs ++ [Out]), g. cbn [fst snd]. repeat split; try assumption.
    + apply Forall2_app; [exact Hall|]. constructor; [|constructor].
      destruct Hcall; cbn;
        [apply SendMessage_follows | apply ReadPump_follows].
    + rewrite joint_insert, app_nil_r. exact Hj.
  - (* a goroutine takes a step *)
    apply Forall2_app_inv_r in Hall.
    destruct Hall as (hs1 & hs' & H1 & H2 & ->).
    inversion H2 as [|h g1 hs2 ts2' Hh H2' E1 E2]; subst.
    cbn [followsG] in Hh.
    destruct (follows_step p p' h s s' Hh Hs) as (h' & Hok & Hh').
    rewrite joint_insert in Hj.
    destruct Hok as (_ & Hmx & evs & Ht & Hev).
    assert (Hnew : exists g',
               merge h' (joint (hs1 ++ hs2)) = Some g' /\
               protocolRun g evs = Some g' /\
               mutex (client s') = negb (isOut g')).
    { rewrite Hm in Hmx.
      destruct Hev as [(-> & Hq) | (ev & -> & Hq & Hpr)].
      - exists g. split; [exact Hj|]. split; [apply protocolRun_quiet; exact Hq|].
        destruct h; cbn in Hmx; exact Hmx.
      - exists h'. destruct (joint (hs1 ++ hs2)) as [[| |]|];
          destruct h; cbn in Hj; try discriminate; injection Hj as <-;
          destruct ev; cbn in Hq, Hpr; try discriminate;
          injection Hpr as <-; cbn in Hmx |- *;
          try (destruct Hmx; discriminate);
          repeat split; try reflexivity; try assumption;
          try (destruct Hmx; assumption). }
    destruct Hnew as (g' & Hj' & Hp' & Hm').
    exists (hs1 ++ h' :: hs2), g'. cbn [fst snd].
    split. { apply Forall2_app; [exact H1|]. constructor; assumption. }
    split. { rewrite joint_insert. exact Hj'. }
    split; [|exact Hm'].
    rewrite Ht, protocolRun_app, Hp. exact Hp'.
Qed.

Lemma poolInv_reachable c0 c : poolInv c0 -> reachable c0 c -> poolInv c.
Proof.
  intros H0 Hr. induction Hr as [|c c' _ IH Hs]; [exact H0|].
  exact (poolInv_step c c' IH Hs).
Qed.

(** The configuration is the same in every state a pool can reach. *)
Lemma poolStep_option c c' :
  poolInv c -> poolStep c c' ->
  option_ (client (fst c')) = option_ (client (fst c)).
Proof.
  intros (hs & g & Hall & _) Hstep.
  destruct Hstep as [s ts g0 Hcall | s s' ts1 ts2 A p p' Hs]; cbn [fst snd] in *.
  - reflexivity.
  - apply Forall2_app_inv_r in Hall.
    destruct Hall as (hs1 & hs' & _ & H2 & _).
    inversion H2 as [|h g1 hs2 ts2' Hh H2' E1 E2]; subst.
    destruct (follows_step p p' h s s' Hh Hs) as (h' & (Ho & _) & _).
    exact Ho.
Qed.

Lemma reachable_option c0 c :
  poolInv c0 -> reachable c0 c ->
  option_ (client (fst c)) = option_ (client (fst c0)).
Proof.
  intros H0 Hr. induction Hr as [|c c' Hr IH Hs]; [reflexivity|].
  rewrite <- IH. apply poolStep_option; [|exact Hs].
  exact (poolInv_reachable c0 c H0 Hr).
Qed.

(** C8, as stated, fails when the peer sends a ping.  An application's
    [SendMessage] has taken the lock and entered [WriteMessage]; before that
    write returns, a [ReadPump] reads the ping and the library writes the
    pong from the reading goroutine, which holds no lock: a second write to
    the connection while the first is under way, made outside
    [SendMessage]. *)
Lemma control_write_during_SendMessage :
  ~ everyWriteUnderLock
      (newClient (resolveOption []) (trafficEnv pingTraffic),
       [Go (heartbeat 1)]).
Proof.
  pose (s0 := newClient (resolveOption []) (trafficEnv pingTraffic)).
  pose (call := Go (SendMessage 1 "hello")).
  assert (Hrun : forall (c : State * Pool) s1 A (p p' : prog A) s2,
             reachable (s0, [Go (heartbeat 1)]) c ->
             c = (s1, [Go (heartbeat 1)] ++ Go p :: []) ->
             step p s1 = Some (s2, p') ->
             reachable (s0, [Go (heartbeat 1)])
                       (s2, [Go (heartbeat 1)] ++ Go p' :: [])).
  { intros c s1 A p p' s2 Hc -> Hs. eapply reach_step; [exact Hc|].
    apply ps_run. exact Hs. }
  assert (H1 : reachable (s0, [Go (heartbeat 1)])
                 (s0, [Go (heartbeat 1)] ++ [call])).
  { eapply reach_step; [apply reach_here|]. apply ps_spawn.
    apply app_SendMessage. }
  pose proof (Hrun _ _ _ _ _ _ H1 eq_refl eq_refl) as H2.
  pose proof (Hrun _ _ _ _ _ _ H2 eq_refl eq_refl) as H3.
  pose proof (Hrun _ _ _ _ _ _ H3 eq_refl eq_refl) as H4.
  pose proof (Hrun _ _ _ _ _ _ H4 eq_refl eq_refl) as H5.
  pose proof (Hrun _ _ _ _ _ _ H5 eq_refl eq_refl) as H6.
  assert (H8 : exists s8 ts8,
             reachable (s0, [Go (heartbeat 1)]) (s8, ts8) /\
             guardedRun Out (trace s8) = None).
  { match type of H6 with
    | reachable _ (?s6, [?h] ++ Go ?p6 :: []) =>
        assert (H7 : reachable (s0, [Go (heartbeat 1)])
                       (s6, [h; Go p6] ++ Go (ReadPump calmHandler 1) :: []))
          by (eapply reach_step; [exact H6|];
              apply (ps_spawn s6 ([h] ++ Go p6 :: []) _
                       (app_ReadPump calmHandler 1)));
        pose proof (reach_step _ _ _ H7
                      (ps_run s6 _ [h; Go p6] [] _
                         (ReadPump calmHandler 1) _ eq_refl)) as H8
    end.
    eexists _, _. split; [exact H8|]. vm_compute. reflexivity. }
  intros H. destruct H8 as (s8 & ts8 & Hr & Hg).
  destruct (H s8 ts8 Hr) as (g & Hg'). congruence.
Qed.

(** C8, as amended.  Start from a new session, its monitor running, and let
    the application start any [SendMessage] and [ReadPump] calls, the
    goroutines interleaving step by step.  In every state reached, the
    events logged so far obey the write protocol: [WriteMessage] is entered
    only by a goroutine that holds the lock, and only when no [WriteMessage]
    is under way.  So at every moment of the history at most one
    [WriteMessage] call is in flight.  The control frames that the library
    writes in reply to inbound ping and close frames are no part of this
    protocol. *)
Theorem writes_never_overlap
    (e : Env) (opts : list SocketOptionFunc) (s0 : State) (ticks : nat)
    (s : State) (ts : Pool) :
  NewSocket None e opts = NewSocketOk s0 ->
  reachable (s0, [Go (heartbeat ticks)]) (s, ts) ->
  (exists g, protocolRun Out (trace s) = Some g) /\
  (forall earlier later, trace s = earlier ++ later ->
     0 <= inFlight earlier <= 1).
Proof.
  intros Hnew Hreach.
  destruct (NewSocket_ok _ _ _ _ Hnew) as (_ & Hm & _ & _ & _ & Ht).
  pose proof (poolInv_reachable _ _ (poolInv_init s0 ticks Hm Ht) Hreach)
    as (hs & g & _ & _ & Hp & _).
  cbn [fst] in Hp. split; [eauto|].
  intros earlier later Hsplit. rewrite Hsplit in Hp.
  apply protocolRun_prefix in Hp. destruct Hp as (g' & Hg').
  rewrite (protocolRun_inFlight earlier g' Hg'). destruct g'; lia.
Qed.

(** The monitor and an application call side by side: the application's
    [SendMessage] has taken the lock and entered its write. *)
Lemma writes_never_overlap_witness :
  exists s ts,
    reachable (newClient (resolveOption []) brokenPipe, [Go (heartbeat 1)])
              (s, ts) /\
    inFlight (trace s) = 1 /\
    (forall earlier later, trace s = earlier ++ later ->
       0 <= inFlight earlier <= 1).
Proof.
  pose (s0 := newClient (resolveOption []) brokenPipe).
  pose (call := Go (SendMessage 1 "hello")).
  assert (Hrun : forall (c : State * Pool) s1 A (p p' : prog A) s2,
             reachable (s0, [Go (heartbeat 1)]) c ->
             c = (s1, [Go (heartbeat 1)] ++ Go p :: []) ->
             step p s1 = Some (s2, p') ->
             reachable (s0, [Go (heartbeat 1)])
                       (s2, [Go (heartbeat 1)] ++ Go p' :: [])).
  { intros c s1 A p p' s2 Hc -> Hs. eapply reach_step; [exact Hc|].
    apply ps_run. exact Hs. }
  assert (H1 : reachable (s0, [Go (heartbeat 1)])
                 (s0, [Go (heartbeat 1)] ++ [call])).
  { eapply reach_step; [apply reach_here|]. apply ps_spawn.
    apply app_SendMessage. }
  pose proof (Hrun _ _ _ _ _ _ H1 eq_refl eq_refl) as H2.
  pose proof (Hrun _ _ _ _ _ _ H2 eq_refl eq_refl) as H3.
  pose proof (Hrun _ _ _ _ _ _ H3 eq_refl eq_refl) as H4.
  pose proof (Hrun _ _ _ _ _ _ H4 eq_refl eq_refl) as H5.
  pose proof (Hrun _ _ _ _ _ _ H5 eq_refl eq_refl) as H6.
  eexists _, _. split; [exact H6|]. split; [reflexivity|].
  exact (proj2 (writes_never_overlap brokenPipe [] s0 1 _ _ eq_refl H6)).
Defined.

(* ===================================================================== *)
(** ** The configuration after construction *)

(** C9.  [SendMessage], [ReadPump], [heartbeat] (its setup and each of its
    ticks) and the pong handler leave every field of the configuration as
    they found it, from any state and however far they run; and in every
    state that the goroutines of a new session can reach by interleaving
    their steps, the configuration is the one construction resolved. *)
Theorem configuration_immutable (s : State) :
  (forall mt msg,
      option_ (client (final (run (SendMessage mt msg) s))) = option_ (client s)) /\
  (forall handler fuel,
      option_ (client (final (run (ReadPump handler fuel) s))) = option_ (client s)) /\
  (forall ticks,
      option_ (client (final (run (heartbeat ticks) s))) = option_ (client s)) /\
  (forall ticks,
      option_ (client (final (run (heartbeat_loop ticks) s))) = option_ (client s)) /\
  (forall d,
      option_ (client (final (run (pongHandler d) s))) = option_ (client s)) /\
  (forall e opts ticks s' ts,
      NewSocket None e opts = NewSocketOk s ->
      reachable (s, [Go (heartbeat ticks)]) (s', ts) ->
      option_ (client s') = resolveOption opts).
Proof.
  repeat split; intros.
  - apply (follows_run_option _ Out). apply SendMessage_follows.
  - apply (follows_run_option _ Out). apply ReadPump_follows.
  - apply (follows_run_option _ Out). apply heartbeat_follows.
  - apply (follows_run_option _ Out). apply heartbeat_loop_follows.
  - apply (follows_run_option _ Out). apply pongHandler_follows.
  - destruct (NewSocket_ok _ _ _ _ H) as (Ho & Hm & _ & _ & _ & Ht).
    rewrite <- Ho.
    apply (reachable_option (s, [Go (heartbeat ticks)]) (s', ts));
      [apply poolInv_init; assumption | assumption].
Qed.

(* ===================================================================== *)
(** ** The ping payload *)

Lemma sendEvents_empty_ping s :
  Forall emptyPingIfWrite (sendEvents PingMessage EmptyString s).
Proof.
  unfold sendEvents. destruct (setWriteDeadlineErrs (env s) O);
    repeat constructor.
Qed.

Lemma heartbeat_loop_pings n :
  forall s,
    mutex (client s) = false ->
    pingMsg (option_ (client s)) = EmptyString ->
    exists evs,
      trace (final (run (heartbeat_loop n) s)) = trace s ++ evs /\
      Forall emptyPingIfWrite evs /\
      ((0 < n)%nat -> setWriteDeadlineErrs (env s) O = None ->
       In (EvWriteMessage PingMessage []) evs).
Proof.
  induction n as [|n IH]; intros s Hm Hmsg.
  - exists []. cbn. rewrite app_nil_r. repeat split; [constructor | lia].
  - rewrite (heartbeat_loop_S n s Hm).
    destruct (afterTick_facts s Hm) as (Ht & Ho & Hm' & _).
    rewrite Hmsg in Ht.
    assert (Hfirst : setWriteDeadlineErrs (env s) O = None ->
              In (EvWriteMessage PingMessage [])
                 (EvTick :: sendEvents PingMessage EmptyString s)).
    { intros E. unfold sendEvents. rewrite E. cbn. tauto. }
    destruct (tickStops s).
    + exists (EvTick :: sendEvents PingMessage EmptyString s).
      cbn [final]. split; [exact Ht|]. split.
      * constructor; [exact I | apply sendEvents_empty_ping].
      * intros _. exact Hfirst.
    + destruct (IH (afterTick s) Hm') as (evs & Ht' & Hall & _).
      { rewrite Ho. exact Hmsg. }
      exists ((EvTick :: sendEvents PingMessage EmptyString s) ++ evs).
      split. { rewrite Ht', Ht, <- app_assoc. reflexivity. }
      split.
      * apply Forall_app. split; [|exact Hall].
        constructor; [exact I | apply sendEvents_empty_ping].
      * intros _ E. apply in_or_app. left. exact (Hfirst E).
Qed.

(** C10.  When no [WithPingMsg] is among the mutators, the resolved ping
    payload is the empty string, and every write the monitor of the new
    session makes is a ping frame with an empty payload; such a write is
    made at the first tick when the write deadline can be set. *)
Theorem ping_payload_empty_by_default (opts : list SocketOptionFunc) :
  (forall m, ~ In (WithPingMsg m) opts) ->
  pingMsg (resolveOption opts) = EmptyString /\
  (forall e s ticks,
      NewSocket None e opts = NewSocketOk s ->
      Forall emptyPingIfWrite (trace (final (run (heartbeat ticks) s))) /\
      (0 < pingPeriod (resolveOption opts) -> (0 < ticks)%nat ->
       setWriteDeadlineErrs e O = None ->
       In (EvWriteMessage PingMessage [])
          (trace (final (run (heartbeat ticks) s))))).
Proof.
  intros Hno.
  assert (Hmsg : pingMsg (resolveOption opts) = EmptyString).
  { destruct (resolveOption_fields opts) as (_ & _ & _ & _ & _ & H).
    rewrite H.
    assert (Hn : lastSet pickPingMsg opts = None).
    { apply lastSet_None_iff. intros f Hf. destruct f; try reflexivity.
      destruct (Hno msg Hf). }
    rewrite Hn. reflexivity. }
  split; [exact Hmsg|]. intros e s ticks Hnew.
  destruct (NewSocket_ok _ _ _ _ Hnew) as (Ho & Hm & _ & _ & He & Ht).
  destruct (Z.ltb_spec 0 (pingPeriod (resolveOption opts))) as [Hp|Hp].
  - rewrite heartbeat_run by (rewrite Ho; exact Hp).
    destruct (afterSetup_facts s) as ((t & Ht0) & Ho0 & Hm0 & _ & Hsw0 & _).
    cbv zeta in *.
    destruct (heartbeat_loop_pings ticks (afterSetup s))
      as (evs & Ht' & Hall & Hin).
    { rewrite Hm0. exact Hm. }
    { rewrite Ho0, Ho. exact Hmsg. }
    rewrite Ht0, Ht in Ht'. cbn [app] in Ht'.
    rewrite Hsw0, He in Hin.
    assert (Htr : exists tail,
               trace (final
                        match run (heartbeat_loop ticks) (afterSetup s) with
                        | Done HbReturned s' => Done HbReturned (log EvTickerStop s')
                        | r => r
                        end) =
               (EvNewTicker (pingPeriod (option_ (client s)))
                  :: EvSetReadDeadline t :: EvSetPongHandler :: evs) ++ tail /\
               Forall emptyPingIfWrite tail).
    { destruct (run (heartbeat_loop ticks) (afterSetup s)) as [[| |] s'|s'];
        cbn [final trace log] in *; rewrite Ht';
        first [ exists [EvTickerStop]; split; [reflexivity|];
                repeat constructor
              | exists []; rewrite app_nil_r; split; [reflexivity|constructor] ]. }
    destruct Htr as (tail & -> & Htail). split.
    + apply Forall_app. split; [|exact Htail].
      repeat (constructor; [exact I|]). exact Hall.
    + intros _ Hticks Hs. apply in_or_app. left.
      do 3 right. exact (Hin Hticks Hs).
  - rewrite heartbeat_panics by (rewrite Ho; exact Hp).
    cbn [final trace log]. rewrite Ht. split; [repeat constructor|].
    intros Hp'. lia.
Qed.

Lemma ping_payload_empty_by_default_witness :
  pingMsg (resolveOption [WithPingPeriod (10 * Duration.Millisecond)])
    = EmptyString /\
  In (EvWriteMessage PingMessage [])
     (trace (final (run (heartbeat 2)
                      (newClient
                         (resolveOption
                            [WithPingPeriod (10 * Duration.Millisecond)])
                         brokenPipe)))).
Proof.
  destruct (ping_payload_empty_by_default
              [WithPingPeriod (10 * Duration.Millisecond)]) as [Hmsg Hsend].
  - intros m [H|[]]. discriminate H.
  - split; [exact Hmsg|].
    apply (proj2 (Hsend brokenPipe _ 2%nat eq_refl));
      [reflexivity | lia | reflexivity].
Defined.

(* ===================================================================== *)
(** ** The read deadline set to zero *)

(** C3: what the code does.  [WithReadDeadline 0] leaves the field zero, so
    [defaultOption] replaces it by 30s.  When a pong then arrives at a
    reader waiting in [ReadMessage], the pong handler finds the deadline
    above a nanosecond and sets the read deadline to the next clock reading
    plus 30s; it does not clear it. *)
Theorem readDeadline_zero_is_not_cleared
    (e : Env) (handler : MessageHandler) (appData : string) :
  let e' := mkEnv (clock e) (setWriteDeadlineErrs e) (writeErrs e)
                  [InPong appData] in
  let s0 := newClient (resolveOption [WithReadDeadline 0]) e' in
  let s1 := final (run (heartbeat 0) s0) in
  let r := run (ReadPump handler 1) s1 in
  NewSocket None e' [WithReadDeadline 0] = NewSocketOk s0 /\
  readDeadline (option_ (client s0)) = 30 * Duration.Second /\
  r = Blocked (final r) /\
  inbound (env (final r)) = [] /\
  connReadDeadline (Conn (client (final r)))
    = Instant (clock e 1%nat + 30 * Duration.Second).
Proof.
  cbv zeta. repeat split.
Qed.

(** The branch of the pong handler that clears the deadline is taken, when
    the handler is called, only for a configured deadline of at most a
    nanosecond that is not zero, such as 1ns; the deadline that [heartbeat]
    has set by then is its clock reading plus that nanosecond. *)
Example readDeadline_one_nanosecond_is_cleared :
  let s0 := newClient (resolveOption [WithReadDeadline 1]) brokenPipe in
  let s1 := final (run (heartbeat 0) s0) in
  connReadDeadline (Conn (client s1)) = Instant (clock brokenPipe 0%nat + 1) /\
  connReadDeadline (Conn (client (final (run (pongHandler "") s1))))
    = ZeroTime.
Proof. split; reflexivity. Qed.

(** With a negative threshold the first failed probe already exceeds it:
    one probe is sent, whatever the number of ticks. *)
Example heartbeat_negative_threshold_one_probe :
  map (fun ticks =>
         countEv isLock
           (trace (final (run (heartbeat ticks)
                            (newClient
                               (resolveOption [WithHeartbeatFailMaxTimes (-1)])
                               brokenPipe)))))
      [0; 1; 2; 10]%nat
  = [0; 1; 1; 1].
Proof. vm_compute. reflexivity. Qed.

(* ===================================================================== *)
(** * Further properties *)

(** ** Options *)

Lemma defaultOption_noZeroField o : noZeroField (defaultOption o).
Proof.
  unfold noZeroField.
  destruct (defaultOption_fields o) as (D1 & D2 & D3 & D4 & D5 & _).
  rewrite D1, D2, D3, D4, D5.
  repeat split;
    match goal with
    | |- (if ?x =? 0 then _ else _) <> 0 =>
        destruct (Z.eqb_spec x 0); [discriminate | assumption]
    end.
Qed.

(** X1.  Whatever the mutators, no numeric field of the configuration that
    [NewSocket] stores is zero: [defaultOption] fills every zero field with a
    default that is not zero.  In particular the ping period given to
    [NewTicker] is never zero. *)
Theorem resolveOption_never_zero (opts : list SocketOptionFunc) :
  noZeroField (resolveOption opts).
Proof.
  unfold resolveOption. apply defaultOption_noZeroField.
Qed.

(** X2.  [defaultOption] changes nothing in a configuration without a zero
    field, and so applying it twice is applying it once. *)
Theorem defaultOption_idempotent (o : SocketOption) :
  (noZeroField o -> defaultOption o = o) /\
  defaultOption (defaultOption o) = defaultOption o.
Proof.
  assert (Hfix : forall o', noZeroField o' -> defaultOption o' = o').
  { intros [b m w r p msg] (Hp & Hw & Hb & Hm & Hr). cbn in *.
    unfold defaultOption. cbn.
    apply Z.eqb_neq in Hp, Hw, Hb, Hm, Hr.
    rewrite Hp. cbn. rewrite Hw. cbn. rewrite Hb. cbn. rewrite Hm. cbn.
    rewrite Hr. reflexivity. }
  split; [apply Hfix|]. apply Hfix. apply defaultOption_noZeroField.
Qed.

Lemma defaultOption_idempotent_witness :
  defaultOption (resolveOption [WithPingPeriod 5]) = resolveOption [WithPingPeriod 5].
Proof.
  apply (proj1 (defaultOption_idempotent (resolveOption [WithPingPeriod 5]))).
  unfold noZeroField. cbn. repeat split; discriminate.
Defined.

Lemma apply_swap f g o :
  apply f (apply g o) =
  if sameField f g then apply f o else apply g (apply f o).
Proof. destruct f, g; reflexivity. Qed.

Lemma applyAll_app a b o : applyAll (a ++ b) o = applyAll b (applyAll a o).
Proof. unfold applyAll. apply fold_left_app. Qed.

(** X3.  Among the mutators given to [NewSocket], two neighbours that
    assign different fields can be exchanged, and of two neighbours that
    assign the same field the first can be dropped, without changing the
    resolved configuration: per field the last mutator wins, and nothing
    else about the order matters. *)
Theorem resolveOption_order (a b : list SocketOptionFunc)
    (f g : SocketOptionFunc) :
  resolveOption (a ++ f :: g :: b) =
  if sameField f g then resolveOption (a ++ g :: b)
  else resolveOption (a ++ g :: f :: b).
Proof.
  unfold resolveOption. rewrite !applyAll_app.
  change (applyAll (f :: g :: b) (applyAll a zeroOption))
    with (applyAll b (apply g (apply f (applyAll a zeroOption)))).
  rewrite apply_swap.
  destruct (sameField g f) eqn:E.
  - replace (sameField f g) with true
      by (destruct f, g; try discriminate; reflexivity).
    reflexivity.
  - replace (sameField f g) with false
      by (destruct f, g; try discriminate; reflexivity).
    reflexivity.
Qed.

(* ===================================================================== *)
(** ** NewSocket *)

(** X4.  The three ways [NewSocket] ends.  It returns the error of the
    upgrade exactly when the upgrade returns one.  Otherwise it panics
    exactly when the last [WithWriteReadBufferSize] gave a size that no
    channel can be made with: a negative one, or one whose buffer of slice
    headers exceeds the runtime's bound on an allocation.  In the remaining
    case it returns a client with the resolved configuration, the lock
    free, no failure counted, no deadline on the connection, and a [Send]
    channel whose capacity is the resolved buffer size, which is positive
    and within that bound. *)
Theorem NewSocket_outcomes
    (upgrade : option error) (e : Env) (opts : list SocketOptionFunc) :
  match NewSocket upgrade e opts with
  | NewSocketErr err => upgrade = Some err
  | NewSocketPanic =>
      upgrade = None /\
      exists size, lastSet pickBufferSize opts = Some size /\
        (size < 0 \/ maxAlloc - hchanSize < sliceHeaderSize * size)
  | NewSocketOk s =>
      upgrade = None /\
      (forall size, lastSet pickBufferSize opts = Some size ->
         0 <= size /\ sliceHeaderSize * size <= maxAlloc - hchanSize) /\
      option_ (client s) = resolveOption opts /\
      Send (client s) = writeReadBufferSize (resolveOption opts) /\
      0 < Send (client s) /\
      sliceHeaderSize * Send (client s) <= maxAlloc - hchanSize /\
      mutex (client s) = false /\
      HeartbeatFailTimes (client s) = 0 /\
      Conn (client s) = mkWsConn ZeroTime ZeroTime false /\
      env s = e /\
      trace s = []
  end.
Proof.
  unfold NewSocket. fold (resolveOption opts).
  destruct upgrade as [err|]; [reflexivity|].
  destruct (resolveOption_fields opts) as (Hb & _). cbv zeta in Hb.
  assert (Hm : maxAlloc - hchanSize = 281474976710560) by reflexivity.
  assert (Hs : sliceHeaderSize = 24) by reflexivity.
  assert (H0 : writeReadBufferSize (resolveOption opts) <> 0)
    by apply (defaultOption_noZeroField (applyAll opts zeroOption)).
  unfold makechanPanics. rewrite Hm, Hs in *.
  set (n := writeReadBufferSize (resolveOption opts)) in *.
  destruct (Z.ltb_spec n 0) as [Hneg|Hpos]; cbn [orb];
    [|destruct (Z.ltb_spec 281474976710560 (24 * n)) as [Hbig|Hfit]].
  - split; [reflexivity|].
    destruct (lastSet pickBufferSize opts) as [size|]; cbn [orZero] in Hb.
    + exists size. split; [reflexivity|].
      destruct (Z.eqb_spec size 0); lia.
    + cbn in Hb. lia.
  - split; [reflexivity|].
    destruct (lastSet pickBufferSize opts) as [size|]; cbn [orZero] in Hb.
    + exists size. split; [reflexivity|].
      destruct (Z.eqb_spec size 0); lia.
    + cbn in Hb. lia.
  - split; [reflexivity|].
    split.
    { intros size Hsize. rewrite Hsize in Hb. cbn [orZero] in Hb.
      destruct (Z.eqb_spec size 0); lia. }
    unfold newClient.
    cbn [client option_ Send mutex HeartbeatFailTimes Conn env trace].
    repeat split; lia.
Qed.

(* ===================================================================== *)
(** ** The monitor, whatever the probes' outcomes *)

Lemma sendEvents_shape mt msg s :
  countEv isUnlock (sendEvents mt msg s) = 1 /\
  countEv isSetWriteDeadline (sendEvents mt msg s) = 1 /\
  filter isReadOrHandler (sendEvents mt msg s) = [].
Proof.
  unfold sendEvents.
  destruct (setWriteDeadlineErrs (env s) O); repeat split.
Qed.

(** The loop with the lock free at its start: it never waits, it ends with
    the lock free, each tick it receives is followed by one complete
    [SendMessage], and it neither reads nor calls a handler. *)
Lemma heartbeat_loop_ticks n :
  forall s,
    mutex (client s) = false ->
    exists r s' evs,
      run (heartbeat_loop n) s = Done r s' /\
      r <> HbPanicked /\
      mutex (client s') = false /\
      trace s' = trace s ++ evs /\
      countEv isLock evs = countEv isTick evs /\
      countEv isUnlock evs = countEv isTick evs /\
      countEv isSetWriteDeadline evs = countEv isTick evs /\
      0 <= countEv isWrite evs <= countEv isTick evs /\
      countEv isTick evs <= Z.of_nat n /\
      (r = HbAwaitingTick -> countEv isTick evs = Z.of_nat n) /\
      filter isReadOrHandler evs = [].
Proof.
  induction n as [|n IH]; intros s Hm.
  - exists HbAwaitingTick, s, []. rewrite app_nil_r.
    repeat split; try reflexivity; try discriminate; try assumption;
      cbn; lia.
  - rewrite (heartbeat_loop_S n s Hm).
    destruct (afterTick_facts s Hm) as (Ht & _ & Hm' & _).
    destruct (sendEvents_counts PingMessage (pingMsg (option_ (client s))) s)
      as (Cl & Ct & Cw).
    destruct (sendEvents_shape PingMessage (pingMsg (option_ (client s))) s)
      as (Cu & Cd & Cr).
    set (evs0 := EvTick :: sendEvents PingMessage
                              (pingMsg (option_ (client s))) s) in *.
    assert (C0 : countEv isLock evs0 = 1 /\ countEv isTick evs0 = 1 /\
                 countEv isUnlock evs0 = 1 /\
                 countEv isSetWriteDeadline evs0 = 1 /\
                 0 <= countEv isWrite evs0 <= 1 /\
                 filter isReadOrHandler evs0 = []).
    { subst evs0. rewrite !countEv_cons, Cl, Ct, Cw, Cu, Cd.
      cbn [isLock isTick isUnlock isSetWriteDeadline isWrite filter
           isReadOrHandler].
      rewrite Cr. destruct (setWriteDeadlineErrs (env s) O);
        repeat split; lia. }
    destruct C0 as (L0 & T0 & U0 & D0 & W0 & R0).
    destruct (tickStops s).
    + exists HbReturned, (afterTick s), evs0.
      repeat split; try assumption; try discriminate; lia.
    + destruct (IH (afterTick s) Hm')
        as (r & s' & evs & Hr & Hnp & Hm2 & Ht2 & L & U & D & W & T & Ta & R).
      exists r, s', (evs0 ++ evs).
      rewrite !countEv_app, filter_app, L0, T0, U0, D0, R0, R.
      repeat split; try assumption; try lia.
      * rewrite Ht2, Ht, <- app_assoc. reflexivity.
      * intros Hr'. specialize (Ta Hr'). lia.
Qed.

(** X5.  On a new session the monitor goes through one complete
    [SendMessage] per tick it receives, whatever the outcomes: in its trace
    the [Lock], [SetWriteDeadline] and [Unlock] events are each as many as the
    ticks received, at most one write is attempted per tick, and the lock is
    free whenever the monitor is waiting for a tick or has stopped.  It
    receives every tick unless it stops.  It never reads from the connection
    and never calls a handler. *)
Theorem heartbeat_one_probe_per_tick
    (e : Env) (opts : list SocketOptionFunc) (s : State) (ticks : nat) :
  NewSocket None e opts = NewSocketOk s ->
  0 < pingPeriod (resolveOption opts) ->
  exists r s',
    run (heartbeat ticks) s = Done r s' /\
    r <> HbPanicked /\
    mutex (client s') = false /\
    countEv isLock (trace s') = countEv isTick (trace s') /\
    countEv isSetWriteDeadline (trace s') = countEv isTick (trace s') /\
    countEv isUnlock (trace s') = countEv isTick (trace s') /\
    0 <= countEv isWrite (trace s') <= countEv isTick (trace s') /\
    countEv isTick (trace s') <= Z.of_nat ticks /\
    (r = HbAwaitingTick -> countEv isTick (trace s') = Z.of_nat ticks) /\
    filter isReadOrHandler (trace s') = [].
Proof.
  intros Hnew Hp.
  destruct (NewSocket_ok _ _ _ _ Hnew) as (Ho & Hm & _ & _ & _ & Ht).
  rewrite heartbeat_run by (rewrite Ho; exact Hp).
  destruct (afterSetup_facts s) as ((t & Ht0) & _ & Hm0 & _).
  cbv zeta in *. rewrite Hm in Hm0. rewrite Ht in Ht0. cbn [app] in Ht0.
  destruct (heartbeat_loop_ticks ticks (afterSetup s) Hm0)
    as (r & s' & evs & Hr & Hnp & Hm2 & Ht2 & L & U & D & W & T & Ta & R).
  rewrite Hr, Ht0 in *.
  assert (Hpre : forall tail,
             countEv isLock tail = 0 -> countEv isTick tail = 0 ->
             countEv isUnlock tail = 0 -> countEv isSetWriteDeadline tail = 0 ->
             countEv isWrite tail = 0 -> filter isReadOrHandler tail = [] ->
             let tr := ([EvNewTicker (pingPeriod (option_ (client s)));
                         EvSetReadDeadline t; EvSetPongHandler] ++ evs) ++ tail in
             countEv isLock tr = countEv isTick tr /\
             countEv isSetWriteDeadline tr = countEv isTick tr /\
             countEv isUnlock tr = countEv isTick tr /\
             0 <= countEv isWrite tr <= countEv isTick tr /\
             countEv isTick tr <= Z.of_nat ticks /\
             (r = HbAwaitingTick -> countEv isTick tr = Z.of_nat ticks) /\
             filter isReadOrHandler tr = []).
  { intros tail L1 T1 U1 D1 W1 R1 tr. subst tr.
    rewrite !countEv_app, !filter_app, L1, T1, U1, D1, W1, R1, R.
    rewrite !countEv_cons. cbn [isLock isTick isUnlock isSetWriteDeadline
                                isWrite filter isReadOrHandler app].
    change (countEv isLock []) with 0. change (countEv isTick []) with 0.
    change (countEv isUnlock []) with 0.
    change (countEv isSetWriteDeadline []) with 0.
    change (countEv isWrite []) with 0.
    repeat split; try lia. intros Hr'. specialize (Ta Hr'). lia. }
  destruct r; [| |congruence].
  - exists HbReturned, (log EvTickerStop s').
    split; [reflexivity|]. split; [discriminate|]. split; [exact Hm2|].
    cbn [trace log]. rewrite Ht2. apply (Hpre [EvTickerStop]); reflexivity.
  - exists HbAwaitingTick, s'.
    split; [reflexivity|]. split; [discriminate|]. split; [exact Hm2|].
    rewrite Ht2. rewrite <- (app_nil_r (_ ++ evs)).
    apply (Hpre []); reflexivity.
Qed.

Lemma heartbeat_one_probe_per_tick_witness :
  exists r s',
    run (heartbeat 7) (newClient (resolveOption []) (flaky 2)) = Done r s' /\
    mutex (client s') = false /\
    countEv isLock (trace s') = countEv isTick (trace s') /\
    filter isReadOrHandler (trace s') = [].
Proof.
  destruct (heartbeat_one_probe_per_tick (flaky 2) []
              (newClient (resolveOption []) (flaky 2)) 7 eq_refl eq_refl)
    as (r & s' & Hr & _ & Hm & Hl & _ & _ & _ & _ & _ & Hq).
  exists r, s'. repeat split; assumption.
Defined.

(** X6.  On a new session, [heartbeat] panics exactly when the last
    [WithPingPeriod] gave a negative period (a period of zero is replaced by
    the default).  It then panics in [NewTicker], before anything else: no
    read deadline is set, no pong handler is installed and no probe is ever
    sent. *)
Theorem heartbeat_panics_iff_negative_period
    (e : Env) (opts : list SocketOptionFunc) (s : State) (ticks : nat) :
  NewSocket None e opts = NewSocketOk s ->
  ((exists s', run (heartbeat ticks) s = Done HbPanicked s') <->
   (exists period, lastSet pickPingPeriod opts = Some period /\ period < 0)) /\
  (forall s', run (heartbeat ticks) s = Done HbPanicked s' ->
     trace s' = [EvNewTicker (pingPeriod (resolveOption opts))] /\
     Conn (client s') = mkWsConn ZeroTime ZeroTime false).
Proof.
  intros Hnew.
  destruct (NewSocket_ok _ _ _ _ Hnew) as (Ho & Hm & _ & Hc & _ & Ht).
  destruct (resolveOption_fields opts) as (_ & _ & _ & _ & Hp & _).
  cbv zeta in Hp.
  assert (Hsign : pingPeriod (resolveOption opts) <= 0 <->
                  exists period,
                    lastSet pickPingPeriod opts = Some period /\ period < 0).
  { rewrite Hp. destruct (lastSet pickPingPeriod opts) as [v|]; cbn [orZero].
    - destruct (Z.eqb_spec v 0) as [->|Hv].
      + split; [cbn; lia|]. intros (p & Hp' & Hneg).
        injection Hp' as <-. lia.
      + split.
        * intros Hle. exists v. split; [reflexivity | lia].
        * intros (p & Hp' & Hneg). injection Hp' as <-. lia.
    - split; [cbn; lia|]. intros (p & Hp' & _). discriminate. }
  destruct (Z.ltb_spec 0 (pingPeriod (resolveOption opts))) as [Hpos|Hneg].
  - assert (Hnot : forall s', run (heartbeat ticks) s <> Done HbPanicked s').
    { intros s'. rewrite heartbeat_run by (rewrite Ho; exact Hpos).
      destruct (afterSetup_facts s) as (_ & _ & Hm0 & _). cbv zeta in Hm0.
      rewrite Hm in Hm0.
      destruct (heartbeat_loop_ticks ticks (afterSetup s) Hm0)
        as (r & s1 & evs & Hr & Hnp & _).
      rewrite Hr. destruct r; congruence. }
    split.
    + split.
      * intros (s' & Hs'). destruct (Hnot s' Hs').
      * intros Hex. apply Hsign in Hex. lia.
    + intros s' Hs'. destruct (Hnot s' Hs').
  - rewrite heartbeat_panics by (rewrite Ho; exact Hneg). split.
    + split; [intros _; apply Hsign; exact Hneg | intros _; eauto].
    + intros s' Hs'. injection Hs' as <-. cbn [trace log client].
      rewrite Ht, Ho. split; [reflexivity | exact Hc].
Qed.

Lemma heartbeat_panics_iff_negative_period_witness :
  exists s',
    run (heartbeat 3)
        (newClient (resolveOption [WithPingPeriod (-1)]) brokenPipe)
      = Done HbPanicked s'.
Proof.
  apply (proj1 (heartbeat_panics_iff_negative_period brokenPipe
                  [WithPingPeriod (-1)] _ 3 eq_refl)).
  exists (-1). split; [reflexivity | lia].
Defined.

Lemma heartbeat_loop_bounds n :
  forall s,
    let maxF := heartbeatFailMaxTimes (option_ (client s)) in
    let f := HeartbeatFailTimes (client s) in
    mutex (client s) = false ->
    maxF < GoInt.max_int ->
    0 <= f <= Z.max maxF 0 ->
    exists r s',
      run (heartbeat_loop n) s = Done r s' /\
      ((r = HbReturned /\
        HeartbeatFailTimes (client s') = Z.max maxF 0 + 1) \/
       (r = HbAwaitingTick /\
        0 <= HeartbeatFailTimes (client s') <= Z.max maxF 0)).
Proof.
  induction n as [|n IH]; intros s maxF f Hm Hmax Hf.
  - exists HbAwaitingTick, s. split; [reflexivity|]. right.
    split; [reflexivity | exact Hf].
  - rewrite (heartbeat_loop_S n s Hm).
    destruct (afterTick_facts s Hm) as (_ & Ho & Hm' & Hf' & _).
    fold f in Hf'. unfold tickStops. fold f maxF.
    assert (Hi : GoInt.incr f = f + 1).
    { apply GoIntFacts.incr_small. unfold GoInt.min_int, GoInt.max_int in *. lia. }
    assert (Hgo : 0 <= HeartbeatFailTimes (client (afterTick s)) <= Z.max maxF 0 ->
              exists r s',
                run (heartbeat_loop n) (afterTick s) = Done r s' /\
                ((r = HbReturned /\
                  HeartbeatFailTimes (client s') = Z.max maxF 0 + 1) \/
                 (r = HbAwaitingTick /\
                  0 <= HeartbeatFailTimes (client s') <= Z.max maxF 0))).
    { intros Hb. destruct (IH (afterTick s) Hm') as (r & s' & Hr & Hc).
      - rewrite Ho. exact Hmax.
      - rewrite Ho. exact Hb.
      - rewrite Ho in Hc. exists r, s'. split; [exact Hr | exact Hc]. }
    destruct (sendResult s) as [e|].
    + rewrite Hi in *. destruct (Z.gtb_spec (f + 1) maxF).
      * exists HbReturned, (afterTick s). split; [reflexivity|]. left.
        split; [reflexivity|]. lia.
      * apply Hgo. lia.
    + apply Hgo. rewrite Hf'. destruct (Z.gtb_spec f 0); [|lia].
      rewrite GoIntFacts.decr_pos; unfold GoInt.max_int in *; lia.
Qed.

(** X7.  The monitor tolerates [max threshold 0] failures.  On a new
    session, after any number of ticks and whatever the outcomes of the
    probes: either the monitor is still running and the counter lies between
    0 and that tolerance, or it has returned and the counter is the
    tolerance plus one.  So a negative threshold tolerates no failure, which
    the threshold 0 cannot be configured to do.  (The threshold is below the
    largest [int].) *)
Theorem heartbeat_stops_exactly_above_threshold
    (e : Env) (opts : list SocketOptionFunc) (s : State) (ticks : nat) :
  let maxF := heartbeatFailMaxTimes (resolveOption opts) in
  NewSocket None e opts = NewSocketOk s ->
  0 < pingPeriod (resolveOption opts) ->
  maxF < GoInt.max_int ->
  exists r s',
    run (heartbeat ticks) s = Done r s' /\
    ((r = HbReturned /\
      HeartbeatFailTimes (client s') = Z.max maxF 0 + 1) \/
     (r = HbAwaitingTick /\
      0 <= HeartbeatFailTimes (client s') <= Z.max maxF 0)).
Proof.
  intros maxF Hnew Hp Hmax.
  destruct (NewSocket_ok _ _ _ _ Hnew) as (Ho & Hm & Hf & _).
  rewrite heartbeat_run by (rewrite Ho; exact Hp).
  destruct (afterSetup_facts s) as (_ & Ho0 & Hm0 & Hf0 & _).
  cbv zeta in *.
  destruct (heartbeat_loop_bounds ticks (afterSetup s)) as (r & s' & Hr & Hcase).
  - rewrite Hm0. exact Hm.
  - rewrite Ho0, Ho. exact Hmax.
  - rewrite Hf0, Hf. lia.
  - rewrite Ho0, Ho in Hcase. fold maxF in Hcase. rewrite Hr.
    destruct Hcase as [(-> & Hc)|(-> & Hc)].
    + exists HbReturned, (log EvTickerStop s'). split; [reflexivity|].
      left. split; [reflexivity | exact Hc].
    + exists HbAwaitingTick, s'. split; [reflexivity|].
      right. split; [reflexivity | exact Hc].
Qed.

Lemma heartbeat_stops_exactly_above_threshold_witness :
  exists r s',
    run (heartbeat 9)
        (newClient (resolveOption [WithHeartbeatFailMaxTimes (-3)]) (flaky 4))
      = Done r s' /\
    ((r = HbReturned /\ HeartbeatFailTimes (client s') = 1) \/
     (r = HbAwaitingTick /\ 0 <= HeartbeatFailTimes (client s') <= 0)).
Proof.
  apply (heartbeat_stops_exactly_above_threshold (flaky 4)
           [WithHeartbeatFailMaxTimes (-3)] _ 9 eq_refl).
  - reflexivity.
  - reflexivity.
Defined.

Lemma heartbeat_loop_all_succeed n :
  forall s,
    mutex (client s) = false ->
    HeartbeatFailTimes (client s) = 0 ->
    (forall i, setWriteDeadlineErrs (env s) i = None) ->
    (forall j, writeErrs (env s) j = None) ->
    exists s' evs,
      run (heartbeat_loop n) s = Done HbAwaitingTick s' /\
      HeartbeatFailTimes (client s') = 0 /\
      trace s' = trace s ++ evs /\
      filter isWrite evs =
        repeat (EvWriteMessage PingMessage
                  (list_byte_of_string (pingMsg (option_ (client s))))) n.
Proof.
  induction n as [|n IH]; intros s Hm Hf Hs Hw.
  - exists s, []. rewrite app_nil_r. repeat split. exact Hf.
  - rewrite (heartbeat_loop_S n s Hm).
    destruct (afterTick_facts s Hm) as (Ht & Ho & Hm' & Hf' & Hsw & Hw').
    assert (E : sendResult s = None).
    { unfold sendResult. rewrite (Hs O). apply Hw. }
    unfold tickStops. rewrite E in *. rewrite Hf in Hf'. cbn in Hf'.
    rewrite (Hs O) in Hw'.
    destruct (IH (afterTick s) Hm' Hf') as (s' & evs & Hr & Hf2 & Ht2 & Hwr).
    + rewrite Hsw. intros i. apply Hs.
    + rewrite Hw'. intros j. apply Hw.
    + exists s', ((EvTick :: sendEvents PingMessage
                               (pingMsg (option_ (client s))) s) ++ evs).
      split; [exact Hr|]. split; [exact Hf2|]. split.
      * rewrite Ht2, Ht, <- app_assoc. reflexivity.
      * rewrite filter_app, Hwr, Ho. unfold sendEvents. rewrite (Hs O).
        reflexivity.
Qed.

(** X8.  On a new session whose connection accepts every deadline and
    every write, the monitor never stops, whatever the threshold: after any
    number of ticks it is waiting for the next one, the failure counter is
    0, and it has written one ping frame per tick, each carrying the
    configured ping payload. *)
Theorem heartbeat_all_probes_succeed
    (e : Env) (opts : list SocketOptionFunc) (s : State) (ticks : nat) :
  NewSocket None e opts = NewSocketOk s ->
  0 < pingPeriod (resolveOption opts) ->
  (forall i, setWriteDeadlineErrs e i = None) ->
  (forall j, writeErrs e j = None) ->
  exists s',
    run (heartbeat ticks) s = Done HbAwaitingTick s' /\
    HeartbeatFailTimes (client s') = 0 /\
    filter isWrite (trace s') =
      repeat (EvWriteMessage PingMessage
                (list_byte_of_string (pingMsg (resolveOption opts)))) ticks.
Proof.
  intros Hnew Hp Hs Hw.
  destruct (NewSocket_ok _ _ _ _ Hnew) as (Ho & Hm & Hf & _ & He & Ht).
  rewrite heartbeat_run by (rewrite Ho; exact Hp).
  destruct (afterSetup_facts s) as ((t & Ht0) & Ho0 & Hm0 & Hf0 & Hsw0 & Hw0).
  cbv zeta in *.
  destruct (heartbeat_loop_all_succeed ticks (afterSetup s))
    as (s' & evs & Hr & Hf' & Ht' & Hwr).
  - rewrite Hm0. exact Hm.
  - rewrite Hf0. exact Hf.
  - rewrite Hsw0, He. exact Hs.
  - rewrite Hw0, He. exact Hw.
  - exists s'. rewrite Hr. split; [reflexivity|]. split; [exact Hf'|].
    rewrite Ht', Ht0, Ht, filter_app, Hwr, Ho0, Ho. reflexivity.
Qed.

Lemma heartbeat_all_probes_succeed_witness :
  exists s',
    run (heartbeat 3)
        (newClient (resolveOption [WithPingMsg "hb"; WithHeartbeatFailMaxTimes (-1)])
           (trafficEnv []))
      = Done HbAwaitingTick s' /\
    HeartbeatFailTimes (client s') = 0 /\
    filter isWrite (trace s') =
      repeat (EvWriteMessage PingMessage (list_byte_of_string "hb")) 3.
Proof.
  apply (heartbeat_all_probes_succeed (trafficEnv [])
           [WithPingMsg "hb"; WithHeartbeatFailMaxTimes (-1)] _ 3 eq_refl).
  - reflexivity.
  - reflexivity.
  - reflexivity.
Defined.

(** X9.  With a negative threshold, on a new session whose every
    [SendMessage] fails, the monitor makes exactly one probe: it returns at
    the first tick, however many ticks the ticker could deliver. *)
Theorem heartbeat_negative_threshold
    (e : Env) (opts : list SocketOptionFunc) (s : State) (ticks : nat) :
  NewSocket None e opts = NewSocketOk s ->
  0 < pingPeriod (resolveOption opts) ->
  heartbeatFailMaxTimes (resolveOption opts) < 0 ->
  probesAlwaysFail e ->
  exists s',
    run (heartbeat ticks) s =
      Done (if (0 <? ticks)%nat then HbReturned else HbAwaitingTick) s' /\
    countEv isTick (trace s') = Z.min (Z.of_nat ticks) 1 /\
    countEv isLock (trace s') = Z.min (Z.of_nat ticks) 1 /\
    HeartbeatFailTimes (client s') = Z.min (Z.of_nat ticks) 1.
Proof.
  intros Hnew Hp Hneg Hfail.
  destruct (NewSocket_ok _ _ _ _ Hnew) as (Ho & Hm & Hf & _ & He & Ht).
  rewrite heartbeat_run by (rewrite Ho; exact Hp).
  destruct (afterSetup_facts s) as ((t & Ht0) & Ho0 & Hm0 & Hf0 & Hsw0 & Hw0).
  cbv zeta in *. rewrite Hm in Hm0. rewrite Ht in Ht0. cbn [app] in Ht0.
  destruct ticks as [|n].
  - exists (afterSetup s). cbn [heartbeat_loop run Nat.ltb Nat.leb].
    split; [reflexivity|]. rewrite Ht0, Hf0, Hf. repeat split.
  - rewrite (heartbeat_loop_S n (afterSetup s) Hm0).
    destruct (afterTick_facts (afterSetup s) Hm0) as (Ht1 & _ & _ & Hf1 & _).
    destruct (sendEvents_counts PingMessage
                (pingMsg (option_ (client (afterSetup s)))) (afterSetup s))
      as (Cl & Ct & _).
    assert (Hres : sendResult (afterSetup s) <> None).
    { apply sendResult_fails. intros i j. rewrite Hsw0, Hw0, He. apply Hfail. }
    unfold tickStops. rewrite Hf0, Hf, Ho0, Ho in *.
    destruct (sendResult (afterSetup s)); [|congruence].
    change (GoInt.incr 0) with 1 in *.
    destruct (Z.gtb_spec 1 (heartbeatFailMaxTimes (resolveOption opts))); [|lia].
    exists (log EvTickerStop (afterTick (afterSetup s))).
    split; [reflexivity|]. cbn [trace log client]. rewrite Ht1, Ht0.
    rewrite !countEv_app, !countEv_cons, Cl, Ct. cbn [isTick isLock].
    change (countEv isTick []) with 0. change (countEv isLock []) with 0.
    repeat split; lia.
Qed.

Lemma heartbeat_negative_threshold_witness :
  exists s',
    run (heartbeat 6)
        (newClient (resolveOption [WithHeartbeatFailMaxTimes (-1)]) brokenPipe)
      = Done HbReturned s' /\
    countEv isLock (trace s') = 1.
Proof.
  destruct (heartbeat_negative_threshold brokenPipe
              [WithHeartbeatFailMaxTimes (-1)] _ 6 eq_refl)
    as (s' & Hr & _ & Hl & _).
  - reflexivity.
  - reflexivity.
  - intros i j. right. discriminate.
  - exists s'. split; [exact Hr | exact Hl].
Defined.

(* ===================================================================== *)
(** ** The read deadline *)

(** X10.  The read deadline that [heartbeat] sets, and the closure it
    installs as pong handler.  The configured read deadline is the last
    [WithReadDeadline] value, or 30s when there is none or it is zero.
    [heartbeat] first sets the read deadline to its clock reading plus that
    duration, whatever its sign, and installs the closure.  A call of the
    closure, whatever its argument, sets the deadline to the closure's own
    clock reading plus that duration when it exceeds a nanosecond, and to
    the zero time otherwise.  So a call of the closure clears the deadline
    exactly when the last [WithReadDeadline] value is at most 1ns and not
    zero; and then the deadline that [heartbeat] set first is its clock
    reading plus that value, at most 1ns ahead.  (Whether the library still
    calls the closure on a connection whose deadline has run out is no part
    of the statement.) *)
Theorem read_deadline_by_configuration
    (e : Env) (opts : list SocketOptionFunc) (s : State) (appData : string) :
  let rd := readDeadline (resolveOption opts) in
  let s1 := final (run (heartbeat 0) s) in
  let s2 := final (run (pongHandler appData) s1) in
  NewSocket None e opts = NewSocketOk s ->
  0 < pingPeriod (resolveOption opts) ->
  rd = match lastSet pickReadDeadline opts with
       | Some v => if v =? 0 then 30 * Duration.Second else v
       | None => 30 * Duration.Second
       end /\
  connReadDeadline (Conn (client s1)) = Instant (clock e 0%nat + rd) /\
  connPongHandler (Conn (client s1)) = true /\
  connReadDeadline (Conn (client s2)) =
    (if rd >? Duration.Nanosecond then Instant (clock e 1%nat + rd)
     else ZeroTime) /\
  (connReadDeadline (Conn (client s2)) = ZeroTime <->
   exists v,
     lastSet pickReadDeadline opts = Some v /\ v <> 0 /\ v <= 1 /\
     connReadDeadline (Conn (client s1)) = Instant (clock e 0%nat + v)).
Proof.
  intros rd s1 s2 Hnew Hp.
  destruct (NewSocket_ok _ _ _ _ Hnew) as (Ho & Hm & _ & _ & He & _).
  assert (Hrd : rd = match lastSet pickReadDeadline opts with
                     | Some v => if v =? 0 then 30 * Duration.Second else v
                     | None => 30 * Duration.Second
                     end).
  { subst rd. destruct (resolveOption_fields opts) as (_ & _ & _ & H & _).
    cbv zeta in H. rewrite H.
    destruct (lastSet pickReadDeadline opts); reflexivity. }
  assert (Hs1 : s1 = afterSetup s).
  { subst s1. rewrite heartbeat_run by (rewrite Ho; exact Hp). reflexivity. }
  destruct (pongHandler_run appData s1) as (s2' & Hr & _ & Hd & _).
  assert (Hs2 : s2 = s2') by (subst s2; rewrite Hr; reflexivity).
  assert (Hpd : pongDeadline s1 =
                if rd >? Duration.Nanosecond then Instant (clock e 1%nat + rd)
                else ZeroTime).
  { rewrite Hs1. unfold pongDeadline, afterSetup. cbn.
    rewrite Ho, He. reflexivity. }
  assert (Hd1 : connReadDeadline (Conn (client s1)) =
                Instant (clock e 0%nat + rd)).
  { rewrite Hs1. cbn. rewrite Ho, He. reflexivity. }
  split; [exact Hrd|]. split; [exact Hd1|].
  split. { rewrite Hs1. reflexivity. }
  rewrite Hs2, Hd, Hpd. split; [reflexivity|].
  rewrite Hd1. unfold Duration.Nanosecond. rewrite Hrd.
  destruct (lastSet pickReadDeadline opts) as [v|].
  - destruct (Z.eqb_spec v 0) as [Hz|Hv].
    + subst v. cbn. split; [discriminate|]. intros (w & Hw & Hnz & _).
      injection Hw as Hw. lia.
    + destruct (Z.gtb_spec v 1).
      * split; [discriminate|]. intros (w & Hw & _ & Hle & _).
        injection Hw as Hw. lia.
      * split; [|reflexivity]. intros _. exists v.
        repeat split; assumption.
  - cbn. split; [discriminate|]. intros (w & Hw & _). discriminate.
Qed.

Lemma read_deadline_by_configuration_witness :
  connReadDeadline
    (Conn (client (final (run (pongHandler "")
       (final (run (heartbeat 0)
          (newClient (resolveOption [WithReadDeadline (-5)]) brokenPipe)))))))
  = ZeroTime.
Proof.
  apply (proj2 (proj2 (proj2 (proj2
           (read_deadline_by_configuration brokenPipe [WithReadDeadline (-5)]
              _ "" eq_refl eq_refl))))).
  exists (-5). repeat split; [discriminate | lia].
Defined.

(* ===================================================================== *)
(** ** ReadPump: faults *)

(** [readMessage_benign], keeping track of what is still inbound. *)
Lemma readMessage_prefix tl pre :
  forall s,
    inbound (env s) = pre ++ tl ->
    forallb benign pre = true ->
    (dataFrames pre = [] /\
     exists sp evs,
       readMessage (pre ++ tl) s = readMessage tl sp /\
       inbound (env sp) = tl /\
       trace sp = trace s ++ evs /\
       filter isReadOrHandler evs = []) \/
    (exists mt d pre' s' evs,
        readMessage (pre ++ tl) s = Yield s' (ReadOk mt d) /\
        trace s' = trace s ++ evs ++ [EvReadMessage (ReadOk mt d)] /\
        filter isReadOrHandler evs = [] /\
        dataFrames pre = (mt, d) :: dataFrames pre' /\
        forallb benign pre' = true /\
        inbound (env s') = pre' ++ tl).
Proof.
  induction pre as [|i pre IH]; intros s Hin Hb.
  - left. split; [reflexivity|]. exists s, []. rewrite app_nil_r.
    repeat split. exact Hin.
  - destruct i as [mt data|d|err|v|d reply|code text cerr]; cbn in Hb; try discriminate.
    + right. exists mt, data, pre. eexists _, []. cbn. repeat split. exact Hb.
    + assert (Hpong : exists sp evs0,
                 readMessage (InPong d :: pre ++ tl) s =
                   readMessage (pre ++ tl) sp /\
                 inbound (env sp) = pre ++ tl /\
                 trace sp = trace s ++ evs0 /\
                 filter isReadOrHandler evs0 = []).
      { cbn [readMessage]. destruct (connPongHandler (Conn (client s))).
        - destruct (pongHandler_run d (set_inbound (pre ++ tl) s))
            as (sp & Hr & Ht & _ & _ & _ & _ & _ & Hi).
          rewrite Hr. exists sp. eexists. split; [reflexivity|].
          split; [exact Hi|]. split; [exact Ht | reflexivity].
        - eexists _, []. split; [reflexivity|]. cbn.
          rewrite app_nil_r. repeat split. }
      destruct Hpong as (sp & evs0 & Hread & Hi & Ht & Hn).
      cbn [app dataFrames]. rewrite Hread.
      destruct (IH sp Hi Hb)
        as [(Hd & sq & evs & Hq & Hiq & Ht' & Hn')
           |(mt & d' & pre' & s' & evs & Hq & Ht' & Hn' & Hd & Hb' & Hin')].
      * left. split; [exact Hd|]. exists sq, (evs0 ++ evs).
        split; [exact Hq|]. split; [exact Hiq|]. split.
        { rewrite Ht', Ht, <- app_assoc. reflexivity. }
        rewrite filter_app, Hn, Hn'. reflexivity.
      * right. exists mt, d', pre', s', (evs0 ++ evs).
        split; [exact Hq|]. split.
        { rewrite Ht', Ht, <- !app_assoc. reflexivity. }
        split. { rewrite filter_app, Hn, Hn'. reflexivity. }
        repeat split; assumption.
Qed.

(** The loop delivers the data frames at the head of the inbound traffic,
    when the handler's [OnMessage] returns on them, and goes on from there. *)
Lemma ReadPump_loop_prefix handler tl :
  forall fuel pre s,
    (forall hist f, In f (dataFrames pre) ->
       handler hist (OnMessage (fst f) (snd f)) = None) ->
    inbound (env s) = pre ++ tl ->
    forallb benign pre = true ->
    (length (dataFrames pre) < fuel)%nat ->
    exists sp evs,
      inbound (env sp) = tl /\
      trace sp = trace s ++ evs /\
      filter isReadOrHandler evs = deliveries (dataFrames pre) /\
      run (ReadPump_loop handler fuel) s =
      run (ReadPump_loop handler (fuel - length (dataFrames pre))) sp.
Proof.
  induction fuel as [|fuel IH]; intros pre s Hh Hin Hb Hlen; [lia|].
  destruct (readMessage_prefix tl pre s Hin Hb)
    as [(Hd & sp & evs & Hread & Hi & Ht & Hn)
       |(mt & d & pre' & s' & evs & Hread & Ht & Hn & Hd & Hb' & Hin')].
  - exists sp, evs. rewrite Hd. cbn [length Nat.sub deliveries flat_map].
    repeat split; try assumption.
    rewrite !ReadPump_loop_S, Hin, Hread, Hi. reflexivity.
  - rewrite ReadPump_loop_S, Hin, Hread. cbv zeta.
    rewrite (Hh _ (mt, d)) by (rewrite Hd; left; reflexivity).
    destruct (IH pre' (log (EvHandler (OnMessage mt d) None) s'))
      as (sp & evs' & Hi & Ht' & Hf & Hrun).
    + intros hist f Hf. apply Hh. rewrite Hd. right. exact Hf.
    + exact Hin'.
    + exact Hb'.
    + rewrite Hd in Hlen. cbn in Hlen. lia.
    + exists sp, (evs ++ [EvReadMessage (ReadOk mt d);
                         EvHandler (OnMessage mt d) None] ++ evs').
      split; [exact Hi|]. split.
      { rewrite Ht'. cbn [trace log]. rewrite Ht, <- !app_assoc. reflexivity. }
      split. { rewrite !filter_app, Hn, Hf, Hd. reflexivity. }
      rewrite Hrun, Hd. reflexivity.
Qed.

Lemma handlerCalls_snoc tr c r :
  handlerCalls (tr ++ [EvHandler c r]) = handlerCalls tr ++ [c].
Proof. rewrite handlerCalls_app. reflexivity. Qed.

Lemma handlerCalls_delivered evs frames :
  filter isReadOrHandler evs = deliveries frames ->
  handlerCalls evs = map (fun f => OnMessage (fst f) (snd f)) frames.
Proof.
  intros H. rewrite <- handlerCalls_filter, H. apply handlerCalls_deliveries.
Qed.

(** X11.  [ReadPump] swallows a panic raised in its loop.  Let the inbound
    traffic begin with data and pong frames on which [OnMessage] returns, and
    let the handler's [OnError] and [OnClose] return.  If [ReadMessage] then
    panics, or if the next data frame makes [OnMessage] panic, [ReadPump]
    calls [OnError] with the panic value, then [OnClose], and returns
    normally to its caller; what lay behind in the inbound traffic is never
    read. *)
Theorem ReadPump_recovers_from_faults
    (handler : MessageHandler) (s : State) (pre tl : list Inbound)
    (fuel : nat) :
  inbound (env s) = pre ++ tl ->
  forallb benign pre = true ->
  (forall hist f, In f (dataFrames pre) ->
     handler hist (OnMessage (fst f) (snd f)) = None) ->
  (forall hist err, handler hist (OnError err) = None) ->
  (forall hist, handler hist OnClose = None) ->
  (length (dataFrames pre) < fuel)%nat ->
  (forall v rest, tl = InFault v :: rest ->
     exists s',
       run (ReadPump handler fuel) s = Done RpReturned s' /\
       handlerCalls (since s s') =
         map (fun f => OnMessage (fst f) (snd f)) (dataFrames pre)
         ++ [OnError (errorOfPanic v); OnClose] /\
       inbound (env s') = rest) /\
  (forall mt d v rest, tl = InData mt d :: rest ->
     (forall hist, handler hist (OnMessage mt d) = Some v) ->
     exists s',
       run (ReadPump handler fuel) s = Done RpReturned s' /\
       handlerCalls (since s s') =
         map (fun f => OnMessage (fst f) (snd f)) (dataFrames pre)
         ++ [OnMessage mt d; OnError (errorOfPanic v); OnClose] /\
       inbound (env s') = rest).
Proof.
  intros Hin Hb Hmsg Herr Hclose Hlen.
  destruct (ReadPump_loop_prefix handler tl fuel pre s Hmsg Hin Hb Hlen)
    as (sp & evs & Hi & Ht & Hf & Hrun).
  destruct (fuel - length (dataFrames pre))%nat as [|m] eqn:Hfuel; [lia|].
  rewrite ReadPump_loop_S, Hi in Hrun.
  pose proof (handlerCalls_delivered _ _ Hf) as Hcalls.
  split.
  - intros v rest ->. cbn [readMessage] in Hrun. eexists.
    unfold ReadPump. rewrite run_bind, Hrun. run_prims.
    rewrite Herr. run_prims. rewrite Hclose. cbn [run].
    split; [reflexivity|]. split; [|reflexivity].
    erewrite since_app.
    2:{ cbn [trace log set_inbound set_env]. rewrite Ht, <- !app_assoc.
        reflexivity. }
    rewrite handlerCalls_app, Hcalls. reflexivity.
  - intros mt d v rest -> Hpanic. cbn [readMessage] in Hrun. cbv zeta in Hrun.
    rewrite Hpanic in Hrun. eexists.
    unfold ReadPump. rewrite run_bind, Hrun. run_prims.
    rewrite Herr. run_prims. rewrite Hclose. cbn [run].
    split; [reflexivity|]. split; [|reflexivity].
    erewrite since_app.
    2:{ cbn [trace log set_inbound set_env]. rewrite Ht, <- !app_assoc.
        reflexivity. }
    rewrite handlerCalls_app, Hcalls. reflexivity.
Qed.

Lemma ReadPump_recovers_from_faults_witness :
  exists s',
    run (ReadPump touchyHandler 4)
        (newClient (resolveOption []) (trafficEnv sampleTraffic))
      = Done RpReturned s' /\
    handlerCalls (trace s') =
      [OnMessage 1 (list_byte_of_string "hi");
       OnMessage 2 (list_byte_of_string "yo");
       OnError "unexpected binary frame"%string; OnClose] /\
    inbound (env s') =
      [InError "EOF"%string; InData 1 (list_byte_of_string "late")].
Proof.
  destruct (ReadPump_recovers_from_faults touchyHandler
              (newClient (resolveOption []) (trafficEnv sampleTraffic))
              [InData 1 (list_byte_of_string "hi"); InPong ""]%string
              [InData 2 (list_byte_of_string "yo"); InError "EOF";
               InData 1 (list_byte_of_string "late")]%string
              4 eq_refl eq_refl) as [_ Hdispatch].
  - intros hist f [<-|[]]. reflexivity.
  - reflexivity.
  - reflexivity.
  - cbn. lia.
  - destruct (Hdispatch 2 (list_byte_of_string "yo")
                "unexpected binary frame"%string _ eq_refl
                (fun _ => eq_refl))
      as (s' & Hr & Hc & Hin).
    exists s'. split; [exact Hr|]. split; [exact Hc | exact Hin].
Defined.

(** X12.  A handler whose [OnError] panics.  Let the inbound traffic be data
    and pong frames, on which [OnMessage] returns, up to a read error.
    [ReadPump] reports the read error with [OnError], which panics; the
    deferred function calls [OnError] again, with the panic value, which
    panics again; that panic leaves [ReadPump], and [OnClose] is never
    called. *)
Theorem ReadPump_OnError_panics
    (handler : MessageHandler) (s : State) (pre rest : list Inbound)
    (e : error) (v : PanicValue) (fuel : nat) :
  inbound (env s) = pre ++ InError e :: rest ->
  forallb benign pre = true ->
  (forall hist f, In f (dataFrames pre) ->
     handler hist (OnMessage (fst f) (snd f)) = None) ->
  (forall hist err, handler hist (OnError err) = Some v) ->
  (length (dataFrames pre) < fuel)%nat ->
  exists s',
    run (ReadPump handler fuel) s = Done (RpPanicked v) s' /\
    handlerCalls (since s s') =
      map (fun f => OnMessage (fst f) (snd f)) (dataFrames pre)
      ++ [OnError e; OnError (errorOfPanic v)] /\
    ~ In OnClose (handlerCalls (since s s')).
Proof.
  intros Hin Hb Hmsg Herr Hlen.
  destruct (ReadPump_loop_prefix handler (InError e :: rest) fuel pre s
              Hmsg Hin Hb Hlen)
    as (sp & evs & Hi & Ht & Hf & Hrun).
  destruct (fuel - length (dataFrames pre))%nat as [|m] eqn:Hfuel; [lia|].
  rewrite ReadPump_loop_S, Hi in Hrun. cbn [readMessage] in Hrun.
  cbv zeta in Hrun. rewrite Herr in Hrun.
  pose proof (handlerCalls_delivered _ _ Hf) as Hcalls.
  eexists. unfold ReadPump. rewrite run_bind, Hrun. run_prims.
  rewrite Herr. cbn [run]. split; [reflexivity|].
  erewrite since_app.
  2:{ cbn [trace log set_inbound set_env]. rewrite Ht, <- !app_assoc.
      reflexivity. }
  rewrite handlerCalls_app, Hcalls. split; [reflexivity|].
  intros Hc. apply in_app_or in Hc. destruct Hc as [Hc|Hc].
  - apply in_map_iff in Hc. destruct Hc as (f & Hc & _). discriminate.
  - cbn in Hc. intuition discriminate.
Qed.

Lemma ReadPump_OnError_panics_witness :
  exists s',
    run (ReadPump brittleHandler 3)
        (newClient (resolveOption []) (trafficEnv sampleTraffic))
      = Done (RpPanicked "cannot log"%string) s' /\
    handlerCalls (trace s') =
      [OnMessage 1 (list_byte_of_string "hi");
       OnMessage 2 (list_byte_of_string "yo");
       OnError "EOF"%string; OnError "cannot log"%string].
Proof.
  destruct (ReadPump_OnError_panics brittleHandler
              (newClient (resolveOption []) (trafficEnv sampleTraffic))
              [InData 1 (list_byte_of_string "hi"); InPong "";
               InData 2 (list_byte_of_string "yo")]%string
              [InData 1 (list_byte_of_string "late")]
              "EOF"%string "cannot log"%string 3 eq_refl eq_refl)
    as (s' & Hr & Hc & _).
  - intros hist f _. reflexivity.
  - reflexivity.
  - cbn. lia.
  - exists s'. split; [exact Hr | exact Hc].
Defined.

(* ===================================================================== *)
(** ** SendMessage after SendMessage *)

Lemma map_shift_seq {A} (f : nat -> A) n :
  map (shift f) (seq 0 n) = map f (seq 1 n).
Proof. rewrite <- seq_shift, map_map. reflexivity. Qed.

Lemma sendAll_run msgs :
  forall s,
    mutex (client s) = false ->
    (forall i, setWriteDeadlineErrs (env s) i = None) ->
    exists s' evs,
      run (sendAll msgs) s =
        Done (map (writeErrs (env s)) (seq 0 (length msgs))) s' /\
      trace s' = trace s ++ evs /\
      filter isWrite evs =
        map (fun m => EvWriteMessage (fst m) (list_byte_of_string (snd m)))
            msgs /\
      mutex (client s') = false /\
      HeartbeatFailTimes (client s') = HeartbeatFailTimes (client s).
Proof.
  induction msgs as [|m msgs IH]; intros s Hm Hs.
  - exists s, []. rewrite app_nil_r. repeat split. exact Hm.
  - cbn [sendAll]. rewrite run_bind.
    destruct (SendMessage_run (fst m) (snd m) s Hm)
      as (s1 & Hr & Ht & _ & Hm1 & Hf1 & _ & _ & _ & _ & Hsw & Hw & _).
    rewrite Hr. rewrite (Hs O) in Hw.
    destruct (IH s1 Hm1) as (s' & evs & Hr' & Ht' & Hwr & Hm' & Hf').
    { rewrite Hsw. intros i. apply Hs. }
    rewrite run_bind, Hr'. cbn [run].
    exists s', (sendEvents (fst m) (snd m) s ++ evs).
    split.
    { unfold sendResult. rewrite (Hs O), Hw, map_shift_seq. reflexivity. }
    split. { rewrite Ht', Ht, <- app_assoc. reflexivity. }
    split; [|split; [exact Hm' | rewrite Hf'; exact Hf1]].
    rewrite filter_app, Hwr. unfold sendEvents. rewrite (Hs O). reflexivity.
Qed.

(** X14.  Calls of [SendMessage] made one after the other, starting with
    the lock free, on a connection whose write deadline can be set: no call
    waits, each call attempts its own write whatever became of the earlier
    ones and returns the result of that write, the frames are handed to the
    connection in the order of the calls, and the lock is free again at the
    end.  The failure counter of the monitor is not touched. *)
Theorem SendMessage_in_sequence (msgs : list (Z * string)) (s : State) :
  mutex (client s) = false ->
  (forall i, setWriteDeadlineErrs (env s) i = None) ->
  exists s',
    run (sendAll msgs) s =
      Done (map (writeErrs (env s)) (seq 0 (length msgs))) s' /\
    filter isWrite (since s s') =
      map (fun m => EvWriteMessage (fst m) (list_byte_of_string (snd m))) msgs /\
    mutex (client s') = false /\
    HeartbeatFailTimes (client s') = HeartbeatFailTimes (client s).
Proof.
  intros Hm Hs.
  destruct (sendAll_run msgs s Hm Hs) as (s' & evs & Hr & Ht & Hw & Hm' & Hf).
  exists s'. rewrite (since_app _ _ _ Ht). repeat split; assumption.
Qed.

(** Three messages on a connection whose first two writes fail: all three
    are attempted, in order. *)
Lemma SendMessage_in_sequence_witness :
  exists s',
    run (sendAll [(1, "a"); (2, "b"); (1, "c")]%string)
        (newClient (resolveOption []) (flaky 2))
      = Done [Some "timeout"; Some "timeout"; None]%string s' /\
    filter isWrite (trace s') =
      [EvWriteMessage 1 (list_byte_of_string "a");
       EvWriteMessage 2 (list_byte_of_string "b");
       EvWriteMessage 1 (list_byte_of_string "c")].
Proof.
  destruct (SendMessage_in_sequence [(1, "a"); (2, "b"); (1, "c")]%string
              (newClient (resolveOption []) (flaky 2)) eq_refl
              (fun _ => eq_refl))
    as (s' & Hr & Hw & _).
  exists s'. split; [exact Hr | exact Hw].
Defined.

(* ===================================================================== *)
(** ** Who changes the failure counter *)

Lemma keepsCounter_bind {A B} (p : prog A) (f : A -> prog B) :
  keepsCounter p ->
  (forall a, keepsCounter (f a)) ->
  keepsCounter (bind p f).
Proof.
  intros Hp Hf. induction p as [a|X act k IH]; cbn in *; [apply Hf|].
  intros s. destruct (Hp s) as [Hc Hk]. split; [exact Hc|].
  destruct (act s) as [s' x|s']; [apply IH; exact Hk | exact I].
Qed.

Lemma keepsCounter_atomic {X} (act : State -> Step X) :
  (forall s, HeartbeatFailTimes (client (stepState (act s)))
             = HeartbeatFailTimes (client s)) ->
  keepsCounter (atomic act).
Proof.
  intros H. cbn. intros s. split; [apply H|]. destruct (act s); exact I.
Qed.

Lemma SendMessage_keepsCounter mt msg : keepsCounter (SendMessage mt msg).
Proof.
  unfold SendMessage, ConnWriteMessage.
  repeat first
    [ apply keepsCounter_bind; [|intros ?]
    | apply keepsCounter_atomic; intros s; cbn;
      repeat match goal with
             | |- context [if ?b then _ else _] => destruct b
             | |- context [match ?x with Some _ => _ | None => _ end] =>
                 destruct x
             end; reflexivity
    | match goal with
      | |- keepsCounter (match ?x with _ => _ end) => destruct x
      end
    | exact I ].
Qed.

Lemma ReadPump_keepsCounter handler fuel : keepsCounter (ReadPump handler fuel).
Proof.
  assert (Hread : keepsCounter ConnReadMessage).
  { apply keepsCounter_atomic. intros s.
    destruct (readMessage_facts (inbound (env s)) s) as (_ & _ & _ & _ & _ & _ & H).
    exact H. }
  assert (Hcall : forall c, keepsCounter (CallHandler handler c)).
  { intros c. apply keepsCounter_atomic. intros s. reflexivity. }
  assert (Hloop : keepsCounter (ReadPump_loop handler fuel)).
  { induction fuel as [|n IH]; [exact I|]. cbn [ReadPump_loop].
    apply keepsCounter_bind; [exact Hread|]. intros [mt data|err|v].
    - apply keepsCounter_bind; [apply Hcall|]. intros [v|]; [exact I | exact IH].
    - apply keepsCounter_bind; [apply Hcall|]. intros [v|]; exact I.
    - exact I. }
  unfold ReadPump. apply keepsCounter_bind; [exact Hloop|].
  intros [|v|]; try exact I.
  apply keepsCounter_bind; [apply Hcall|]. intros [v'|]; [exact I|].
  apply keepsCounter_bind; [apply Hcall|]. intros [v'|]; exact I.
Qed.

Lemma poolStep_keepsCounter c c' :
  Forall keepsCounterG (snd c) ->
  poolStep c c' ->
  Forall keepsCounterG (snd c') /\
  HeartbeatFailTimes (client (fst c')) = HeartbeatFailTimes (client (fst c)).
Proof.
  intros Hall Hstep.
  destruct Hstep as [s ts g Hcall | s s' ts1 ts2 A p p' Hs]; cbn [fst snd] in *.
  - split; [|reflexivity]. apply Forall_app. split; [exact Hall|].
    constructor; [|constructor].
    destruct Hcall; cbn;
      [apply SendMessage_keepsCounter | apply ReadPump_keepsCounter].
  - apply Forall_app in Hall. destruct Hall as [H1 H2].
    inversion H2 as [|g ts Hp H2']; subst. cbn [keepsCounterG] in Hp.
    destruct p as [a|X act k]; [discriminate|]. cbn in Hs.
    destruct (Hp s) as [Hc Hk].
    destruct (act s) as [s1 x|s1]; injection Hs as <- <-;
      cbn [stepState] in Hc.
    + split; [|exact Hc]. apply Forall_app. split; [exact H1|].
      constructor; [exact Hk | exact H2'].
    + split; [|exact Hc]. apply Forall_app. split; [exact H1|].
      constructor; [exact Hp | exact H2'].
Qed.

(** X15.  Only the monitor counts failures.  However many [SendMessage]
    and [ReadPump] calls the application starts on a session, and however
    their steps interleave, and whether their writes and reads succeed or
    fail, the failure counter keeps the value it had. *)
Theorem application_calls_keep_failure_counter
    (s s' : State) (ts : Pool) :
  reachable (s, []) (s', ts) ->
  HeartbeatFailTimes (client s') = HeartbeatFailTimes (client s).
Proof.
  intros Hr.
  assert (H : Forall keepsCounterG (snd (s', ts)) /\
              HeartbeatFailTimes (client (fst (s', ts)))
                = HeartbeatFailTimes (client (fst (s, @nil goroutine)))).
  { induction Hr as [|c c' _ IH Hs].
    - split; [constructor | reflexivity].
    - destruct IH as [Hall Hc].
      destruct (poolStep_keepsCounter c c' Hall Hs) as [Hall' Hc'].
      split; [exact Hall' | rewrite Hc'; exact Hc]. }
  exact (proj2 H).
Qed.

Lemma application_calls_keep_failure_counter_witness :
  exists s' ts,
    reachable (set_HeartbeatFailTimes 3 (newClient (resolveOption []) brokenPipe),
               []) (s', ts) /\
    In (EvWriteReturn (Some "broken pipe"%string)) (trace s') /\
    HeartbeatFailTimes (client s') = 3.
Proof.
  pose (s0 := set_HeartbeatFailTimes 3 (newClient (resolveOption []) brokenPipe)).
  assert (Hrun : forall (c : State * Pool) s1 A (p p' : prog A) s2,
             reachable (s0, []) c ->
             c = (s1, [] ++ Go p :: []) ->
             step p s1 = Some (s2, p') ->
             reachable (s0, []) (s2, [] ++ Go p' :: [])).
  { intros c s1 A p p' s2 Hc -> Hs. eapply reach_step; [exact Hc|].
    apply ps_run. exact Hs. }
  assert (H1 : reachable (s0, []) (s0, [] ++ [Go (SendMessage 1 "x")])).
  { eapply reach_step; [apply reach_here|]. apply ps_spawn.
    apply app_SendMessage. }
  pose proof (Hrun _ _ _ _ _ _ H1 eq_refl eq_refl) as H2.
  pose proof (Hrun _ _ _ _ _ _ H2 eq_refl eq_refl) as H3.
  pose proof (Hrun _ _ _ _ _ _ H3 eq_refl eq_refl) as H4.
  pose proof (Hrun _ _ _ _ _ _ H4 eq_refl eq_refl) as H5.
  pose proof (Hrun _ _ _ _ _ _ H5 eq_refl eq_refl) as H6.
  pose proof (Hrun _ _ _ _ _ _ H6 eq_refl eq_refl) as H7.
  eexists _, _. split; [exact H7|]. split.
  - cbn. tauto.
  - exact (application_calls_keep_failure_counter _ _ _ H7).
Defined.

(* ===================================================================== *)
(** ** The lock is never held by a goroutine that waits *)

Lemma followsLive_bind {A B} (p : prog A) (f : A -> prog B) h :
  followsLive h p ->
  (forall a, followsLive Out (f a)) ->
  followsLive h (bind p f).
Proof.
  intros Hp Hf. revert h Hp.
  induction p as [a|X act k IH]; intros h Hp; cbn in *.
  - subst h. apply Hf.
  - intros s. specialize (Hp s). destruct (act s) as [s' x|s'].
    + destruct Hp as (h' & Hs & Hk). exists h'. split; [exact Hs|].
      apply IH. exact Hk.
    + exact Hp.
Qed.

Lemma followsLive_atomic_quiet {X} (act : State -> Step X) :
  (forall s, stepOk Out Out s (stepState (act s))) ->
  followsLive Out (atomic act).
Proof.
  intros H. cbn. intros s. specialize (H s).
  destruct (act s) as [s' x|s']; cbn [stepState] in H.
  - exists Out. split; [exact H | reflexivity].
  - split; [exact H | left; reflexivity].
Qed.

Lemma SendMessage_followsLive mt msg : followsLive Out (SendMessage mt msg).
Proof.
  unfold SendMessage. cbn. intros s.
  destruct (mutex (client s)) eqn:Hm;
    [split; [quiet_step | left; reflexivity]|].
  exists Held. split; [move_step|].
  intros s1. exists Held. split; [quiet_step|].
  intros s2. exists Held. split; [quiet_step|].
  intros s3. exists Held. split.
  { destruct (setWriteDeadlineErrs (env s3) O); move_step. }
  assert (Hunlock : forall r : option error,
             followsLive Held (Unlock ;; Ret r)).
  { intros r. cbn. intros s4. destruct (mutex (client s4)) eqn:Hm4.
    - exists Out. split; [move_step | reflexivity].
    - split; [quiet_step | right; reflexivity]. }
  destruct (setWriteDeadlineErrs (env s3) O) as [e|]; cbn.
  - apply (Hunlock (Some e)).
  - intros s4. exists Writing. split; [move_step|].
    intros s5. exists Held. split; [move_step|].
    destruct (writeErrs (env s5) O) as [e|]; cbn.
    + apply (Hunlock (Some e)).
    + apply (Hunlock None).
Qed.

Lemma ConnReadMessage_followsLive : followsLive Out ConnReadMessage.
Proof.
  apply followsLive_atomic_quiet. intros s.
  destruct (readMessage_facts (inbound (env s)) s)
    as (evs & Ht & Hq & _ & Ho & Hm & _).
  cbv zeta in *.
  eapply stepOk_quiet; [exact Ht | | exact Ho | exact Hm].
  rewrite forallb_app, Hq.
  destruct (readMessage (inbound (env s)) s); reflexivity.
Qed.

Ltac followL :=
  repeat first
    [ apply SendMessage_followsLive
    | apply ConnReadMessage_followsLive
    | apply followsLive_atomic_quiet; intros ?; cbn [stepState]; quiet_step
    | apply followsLive_bind; [|intros ?]
    | reflexivity ].

Lemma heartbeat_loop_followsLive ticks : followsLive Out (heartbeat_loop ticks).
Proof.
  induction ticks as [|n IH]; [reflexivity|].
  cbn [heartbeat_loop].
  apply followsLive_bind; [followL|]. intros _.
  apply followsLive_bind; [followL|]. intros opt.
  apply followsLive_bind; [followL|]. intros [e|].
  - apply followsLive_bind; [followL|]. intros f.
    apply followsLive_bind; [followL|]. intros _.
    apply followsLive_bind; [followL|]. intros f'.
    apply followsLive_bind; [followL|]. intros opt'.
    destruct (f' >? heartbeatFailMaxTimes opt'); [reflexivity | exact IH].
  - apply followsLive_bind; [followL|]. intros f.
    apply followsLive_bind; [|intros _; exact IH].
    destruct (f >? 0); followL.
Qed.

Lemma heartbeat_followsLive ticks : followsLive Out (heartbeat ticks).
Proof.
  unfold heartbeat.
  apply followsLive_bind; [followL|]. intros opt.
  apply followsLive_bind; [followL|]. intros [|]; [|reflexivity].
  apply followsLive_bind; [followL|]. intros now.
  apply followsLive_bind; [followL|]. intros opt'.
  apply followsLive_bind; [followL|]. intros _.
  apply followsLive_bind; [followL|]. intros _.
  apply followsLive_bind; [apply heartbeat_loop_followsLive|].
  intros [| |]; followL.
Qed.

Lemma ReadPump_followsLive handler fuel :
  followsLive Out (ReadPump handler fuel).
Proof.
  assert (Hloop : followsLive Out (ReadPump_loop handler fuel)).
  { induction fuel as [|n IH]; [reflexivity|]. cbn [ReadPump_loop].
    apply followsLive_bind; [followL|]. intros [mt data|err|v].
    - apply followsLive_bind; [followL|]. intros [v|]; [reflexivity | exact IH].
    - apply followsLive_bind; [followL|]. intros [v|]; reflexivity.
    - reflexivity. }
  unfold ReadPump. apply followsLive_bind; [exact Hloop|].
  intros [|v|]; try reflexivity.
  apply followsLive_bind; [followL|]. intros [v'|]; [reflexivity|].
  apply followsLive_bind; [followL|]. intros [v'|]; reflexivity.
Qed.

Lemma followsLive_step {A} (p p' : prog A) h s s' :
  followsLive h p ->
  step p s = Some (s', p') ->
  exists h', stepOk h h' s s' /\ followsLive h' p'.
Proof.
  intros Hp Hs. destruct p as [a|X act k]; [discriminate|].
  cbn in Hs. pose proof (Hp s) as Hps. cbn in Hps.
  destruct (act s) as [s1 x|s1]; injection Hs as <- <-.
  - exact Hps.
  - exists h. split; [exact (proj1 Hps) | exact Hp].
Qed.

(** What a step of one goroutine does to the standing of the pool. *)
Lemma holder_step h h' rest g s s' :
  merge h rest = Some g ->
  mutex (client s) = negb (isOut g) ->
  stepOk h h' s s' ->
  exists g' evs,
    trace s' = trace s ++ evs /\
    merge h' rest = Some g' /\
    protocolRun g evs = Some g' /\
    mutex (client s') = negb (isOut g').
Proof.
  intros Hj Hm (_ & Hmx & evs & Ht & Hev). rewrite Hm in Hmx.
  destruct Hev as [(-> & Hq) | (ev & -> & Hq & Hpr)].
  - exists g, evs. split; [exact Ht|]. split; [exact Hj|].
    split; [apply protocolRun_quiet; exact Hq|].
    destruct h; cbn in Hmx; exact Hmx.
  - exists h', [ev]. split; [exact Ht|].
    destruct rest as [[| |]|];
      destruct h; cbn in Hj; try discriminate; injection Hj as <-;
      destruct ev; cbn in Hq, Hpr; try discriminate;
      injection Hpr as <-; cbn in Hmx |- *;
      try (destruct Hmx; discriminate);
      repeat split; try reflexivity; try assumption;
      try (destruct Hmx; assumption).
Qed.

Lemma poolInvLive_step c c' : poolInvLive c -> poolStep c c' -> poolInvLive c'.
Proof.
  intros (hs & g & Hall & Hj & Hp & Hm) Hstep.
  destruct Hstep as [s ts g0 Hcall | s s' ts1 ts2 A p p' Hs]; cbn [fst snd] in *.
  - exists (hs ++ [Out]), g. cbn [fst snd]. repeat split; try assumption.
    + apply Forall2_app; [exact Hall|]. constructor; [|constructor].
      destruct Hcall; cbn;
        [apply SendMessage_followsLive | apply ReadPump_followsLive].
    + rewrite joint_insert, app_nil_r. exact Hj.
  - apply Forall2_app_inv_r in Hall.
    destruct Hall as (hs1 & hs' & H1 & H2 & ->).
    inversion H2 as [|h g1 hs2 ts2' Hh H2' E1 E2]; subst.
    cbn [followsLiveG] in Hh.
    destruct (followsLive_step p p' h s s' Hh Hs) as (h' & Hok & Hh').
    rewrite joint_insert in Hj.
    destruct (holder_step h h' _ g s s' Hj Hm Hok)
      as (g' & evs & Ht & Hj' & Hp' & Hm').
    exists (hs1 ++ h' :: hs2), g'. cbn [fst snd].
    split. { apply Forall2_app; [exact H1|]. constructor; assumption. }
    split. { rewrite joint_insert. exact Hj'. }
    split; [|exact Hm'].
    rewrite Ht, protocolRun_app, Hp. exact Hp'.
Qed.

Lemma joint_holder hs g :
  joint hs = Some g -> g <> Out ->
  exists hs1 hs2, hs = hs1 ++ g :: hs2.
Proof.
  induction hs as [|h hs IH]; intros Hj Hg; cbn in Hj.
  - injection Hj as <-. congruence.
  - destruct h.
    + cbn in Hj. destruct (IH Hj Hg) as (hs1 & hs2 & ->).
      exists (Out :: hs1), hs2. reflexivity.
    + destruct (joint hs) as [[| |]|]; cbn in Hj; try discriminate.
      injection Hj as <-. exists [], hs. reflexivity.
    + destruct (joint hs) as [[| |]|]; cbn in Hj; try discriminate.
      injection Hj as <-. exists [], hs. reflexivity.
Qed.

(** X16.  No goroutine waits while it holds the lock.  Start from a new
    session, its monitor running, and let the application start any
    [SendMessage] and [ReadPump] calls.  In every state the goroutines can
    reach in which the lock is held, a goroutine inside the critical section
    of [SendMessage] is at a step that completes: the lock is never held by a
    goroutine that is itself waiting, so waiting for the lock cannot end in a
    deadlock. *)
Theorem lock_holder_can_advance
    (e : Env) (opts : list SocketOptionFunc) (s0 : State) (ticks : nat)
    (s : State) (ts : Pool) :
  NewSocket None e opts = NewSocketOk s0 ->
  reachable (s0, [Go (heartbeat ticks)]) (s, ts) ->
  mutex (client s) = true ->
  holderAdvances (s, ts).
Proof.
  intros Hnew Hreach Hheld.
  destruct (NewSocket_ok _ _ _ _ Hnew) as (_ & Hm & _ & _ & _ & Ht).
  assert (Hinv : poolInvLive (s, ts)).
  { clear Hheld. induction Hreach as [|c c' _ IH Hs].
    - exists [Out], Out. cbn. rewrite Hm, Ht. repeat split.
      constructor; [apply heartbeat_followsLive | constructor].
    - exact (poolInvLive_step c c' IH Hs). }
  destruct Hinv as (hs & g & Hall & Hj & _ & Hmg). cbn [fst snd] in *.
  assert (Hg : g <> Out) by (intros ->; rewrite Hheld in Hmg; discriminate).
  destruct (joint_holder hs g Hj Hg) as (hs1 & hs2 & ->).
  apply Forall2_app_inv_l in Hall.
  destruct Hall as (ts1 & ts' & _ & H2 & ->).
  inversion H2 as [|h g1 hs2' ts2 Hh H2' E1 E2]; subst.
  destruct g1 as [A p]. cbn [followsLiveG] in Hh.
  destruct p as [a|X act k]; [cbn in Hh; congruence|].
  pose proof (Hh s) as Hs. cbn in Hs.
  destruct (act s) as [s' x|s'] eqn:E.
  - exists ts1, ts2, A, X, act, k, g, s', x.
    split; [reflexivity|]. split; [exact Hg|]. split; [exact Hh | exact E].
  - destruct Hs as (_ & [Hout|Hfree]); [congruence|].
    rewrite Hheld in Hfree. discriminate.
Qed.

Lemma lock_holder_can_advance_witness :
  exists s ts,
    reachable (newClient (resolveOption []) brokenPipe, [Go (heartbeat 1)])
              (s, ts) /\
    mutex (client s) = true /\
    holderAdvances (s, ts).
Proof.
  pose (s0 := newClient (resolveOption []) brokenPipe).
  assert (Hrun : forall (c : State * Pool) s1 A (p p' : prog A) s2,
             reachable (s0, [Go (heartbeat 1)]) c ->
             c = (s1, [Go (heartbeat 1)] ++ Go p :: []) ->
             step p s1 = Some (s2, p') ->
             reachable (s0, [Go (heartbeat 1)])
                       (s2, [Go (heartbeat 1)] ++ Go p' :: [])).
  { intros c s1 A p p' s2 Hc -> Hs. eapply reach_step; [exact Hc|].
    apply ps_run. exact Hs. }
  assert (H1 : reachable (s0, [Go (heartbeat 1)])
                 (s0, [Go (heartbeat 1)] ++ [Go (SendMessage 1 "hello")])).
  { eapply reach_step; [apply reach_here|]. apply ps_spawn.
    apply app_SendMessage. }
  pose proof (Hrun _ _ _ _ _ _ H1 eq_refl eq_refl) as H2.
  pose proof (Hrun _ _ _ _ _ _ H2 eq_refl eq_refl) as H3.
  eexists _, _. split; [exact H3|]. split; [reflexivity|].
  exact (lock_holder_can_advance brokenPipe [] s0 1 _ _ eq_refl H3 eq_refl).
Defined.

(* ===================================================================== *)
(** ** A monitor that has stopped *)

Lemma heartbeat_loop_stays_returned n :
  forall s s',
    mutex (client s) = false ->
    run (heartbeat_loop n) s = Done HbReturned s' ->
    forall k, run (heartbeat_loop (n + k)) s = Done HbReturned s'.
Proof.
  induction n as [|n IH]; intros s s' Hm Hr k; [discriminate|].
  cbn [Nat.add]. rewrite (heartbeat_loop_S n s Hm) in Hr.
  rewrite (heartbeat_loop_S (n + k) s Hm).
  destruct (tickStops s); [exact Hr|].
  destruct (afterTick_facts s Hm) as (_ & _ & Hm' & _).
  exact (IH (afterTick s) s' Hm' Hr k).
Qed.

(** X17.  A monitor that has returned stays returned.  If on a new session
    the monitor has returned within [n] ticks, then for every larger number
    of ticks the run ends in the same state: it sends no further probe and
    does not resume, even when later writes on the connection would have
    succeeded. *)
Theorem heartbeat_stays_stopped
    (e : Env) (opts : list SocketOptionFunc) (s s' : State) (n m : nat) :
  NewSocket None e opts = NewSocketOk s ->
  run (heartbeat n) s = Done HbReturned s' ->
  (n <= m)%nat ->
  run (heartbeat m) s = Done HbReturned s'.
Proof.
  intros Hnew Hr Hle.
  destruct (NewSocket_ok _ _ _ _ Hnew) as (Ho & Hm & _).
  destruct (Z.ltb_spec 0 (pingPeriod (option_ (client s)))) as [Hp|Hp].
  - rewrite (heartbeat_run n s Hp) in Hr. rewrite (heartbeat_run m s Hp).
    destruct (afterSetup_facts s) as (_ & _ & Hm0 & _). cbv zeta in Hm0.
    rewrite Hm in Hm0.
    destruct (run (heartbeat_loop n) (afterSetup s)) as [[| |] s1|s1] eqn:E;
      try discriminate.
    injection Hr as <-.
    replace m with (n + (m - n))%nat by lia.
    rewrite (heartbeat_loop_stays_returned n _ _ Hm0 E). reflexivity.
  - rewrite (heartbeat_panics n s Hp) in Hr. discriminate.
Qed.

(** Five writes fail and the later ones would succeed: with the default
    threshold the monitor has returned at the fifth tick and sends nothing
    at the ninth. *)
Lemma heartbeat_stays_stopped_witness :
  run (heartbeat 9) (newClient (resolveOption []) (flaky 5))
    = Done HbReturned
        (final (run (heartbeat 5) (newClient (resolveOption []) (flaky 5)))).
Proof.
  apply (heartbeat_stays_stopped (flaky 5) [] _ _ 5 9 eq_refl);
    [vm_compute; reflexivity | lia].
Defined.
